(** * Ad clip generation orchestrator: src/app/api/veo/route.ts

    A shallow embedding of the route handler and of the helpers it calls,
    followed by the properties of the retry loop, the cache and the frame
    provider.

    Modelling conventions.
    - JavaScript numbers are exact rationals ([Q]); [Math.floor] is [Qfloor].
      NaN and the infinities are not represented.
    - JavaScript strings are [string]s of 8-bit characters; [toLowerCase] and
      [trim] act on the ASCII letters and the ASCII white space.
    - A JavaScript [Map] is an association list in insertion order.
    - Everything outside the process (subprocesses, HTTP, the video model, the
      file system, the clock) is an oracle that reads and updates an abstract
      world [W]; the handler threads the world through every call and logs
      what it did in a list of [Event]s. *)

From Stdlib Require Import ZArith QArith Qround Qminmax Qabs.
From Stdlib Require Import String Ascii DecimalString List Bool Arith Lia.
Import ListNotations.

Set Warnings "-register-all".
Local Open Scope string_scope.
Local Open Scope Z_scope.

(* ================================================================== *)
(** ** JavaScript strings and values *)
(* ================================================================== *)

Module Js.

Definition isUpper (c : ascii) : bool :=
  let n := nat_of_ascii c in (Nat.leb 65 n && Nat.leb n 90)%bool.

Definition lowerChar (c : ascii) : ascii :=
  if isUpper c then ascii_of_nat (nat_of_ascii c + 32) else c.

(** [String.prototype.toLowerCase] *)
Fixpoint toLowerCase (s : string) : string :=
  match s with
  | EmptyString => EmptyString
  | String c r => String (lowerChar c) (toLowerCase r)
  end.

(** [hay.startsWith(needle)] *)
Fixpoint startsWith (needle hay : string) : bool :=
  match needle, hay with
  | EmptyString, _ => true
  | String _ _, EmptyString => false
  | String a n', String b h' => (Ascii.eqb a b && startsWith n' h')%bool
  end.

(** [hay.indexOf(needle)]; [None] stands for -1. *)
Fixpoint indexOf (needle hay : string) : option nat :=
  if startsWith needle hay then Some O
  else match hay with
       | EmptyString => None
       | String _ h' => option_map S (indexOf needle h')
       end.

(** [hay.includes(needle)] *)
Definition includes (hay needle : string) : bool :=
  match indexOf needle hay with Some _ => true | None => false end.

(** [s.slice(start)] *)
Fixpoint slice (start : nat) (s : string) : string :=
  match start, s with
  | O, _ => s
  | S n, EmptyString => EmptyString
  | S n, String _ r => slice n r
  end.

(** [s.slice(0, n)] *)
Fixpoint take (n : nat) (s : string) : string :=
  match n, s with
  | O, _ => EmptyString
  | S _, EmptyString => EmptyString
  | S m, String c r => String c (take m r)
  end.

Definition isSpace (c : ascii) : bool :=
  let n := nat_of_ascii c in
  ((Nat.leb 9 n && Nat.leb n 13) || Nat.eqb n 32)%bool.

Fixpoint trimStart (s : string) : string :=
  match s with
  | EmptyString => EmptyString
  | String c r => if isSpace c then trimStart r else s
  end.

(** Drops the trailing white space: a character is kept when it is not a
    space or when something is kept after it. *)
Fixpoint trimEnd (s : string) : string :=
  match s with
  | EmptyString => EmptyString
  | String c r =>
      match trimEnd r with
      | EmptyString => if isSpace c then EmptyString else String c EmptyString
      | r' => String c r'
      end
  end.

(** [String.prototype.trim] *)
Definition trim (s : string) : string := trimEnd (trimStart s).

Fixpoint filterChars (keep : ascii -> bool) (s : string) : string :=
  match s with
  | EmptyString => EmptyString
  | String c r => if keep c then String c (filterChars keep r) else filterChars keep r
  end.

(** [parts.join(sep)] *)
Fixpoint join (sep : string) (parts : list string) : string :=
  match parts with
  | [] => EmptyString
  | [p] => p
  | p :: rest => p ++ sep ++ join sep rest
  end.

(** [String(n)] and template interpolation of an integer-valued number. *)
Definition ofZ (z : Z) : string := NilZero.string_of_int (Z.to_int z).

(** A value as [JSON.parse] produces it, plus [undefined] for what is absent.
    An object lists its own properties; [JSON.parse] leaves one binding per
    name. *)
Inductive Value : Type :=
| Undefined
| Null
| Bool (b : bool)
| Num (q : Q)
| Str (s : string)
| Arr (items : list Value)
| Obj (props : list (string * Value)).

Fixpoint lookup (k : string) (props : list (string * Value)) : Value :=
  match props with
  | [] => Undefined
  | (k', v) :: rest => if String.eqb k k' then v else lookup k rest
  end.

(** [v[k]] for one of the property names the handler reads ([product],
    [videoId], [code], ...): no primitive, string or array has such a
    property.  [None] is the TypeError raised on [null] and [undefined]. *)
Definition get (v : Value) (k : string) : option Value :=
  match v with
  | Undefined | Null => None
  | Obj props => Some (lookup k props)
  | _ => Some Undefined
  end.

(** [v?.[k]] *)
Definition getOpt (v : Value) (k : string) : Value :=
  match get v k with Some x => x | None => Undefined end.

(** Truthiness, as [if (v)] and [!v] see it. *)
Definition truthy (v : Value) : bool :=
  match v with
  | Undefined | Null => false
  | Bool b => b
  | Num q => negb (Qeq_bool q 0)
  | Str s => negb (String.eqb s "")
  | Arr _ | Obj _ => true
  end.

(** [obj[k] = v] on a parsed object: replaces the binding or adds one. *)
Fixpoint assign (k : string) (v : Value) (props : list (string * Value))
  : list (string * Value) :=
  match props with
  | [] => [(k, v)]
  | (k', v') :: rest =>
      if String.eqb k k' then (k, v) :: rest else (k', v') :: assign k v rest
  end.

Definition set (o : Value) (k : string) (v : Value) : Value :=
  match o with
  | Obj props => Obj (assign k v props)
  | _ => o
  end.

End Js.

(** The double quote character, for the texts that contain one. *)
Definition dquote : string := String (ascii_of_nat 34) EmptyString.

(* ================================================================== *)
(** ** Constants and configuration (route.ts, lines 42-60) *)
(* ================================================================== *)

Definition AD_INSERT_DURATION_SECONDS : Z := 8.
Definition VEO_MAX_IMAGE_TO_VIDEO_SECONDS : Z := 8.
Definition DEFAULT_ASPECT_RATIO : string := "16:9".
Definition DEFAULT_RESOLUTION : string := "720p".
Definition MAX_CONTEXT_CHARS : nat := 1500.

(** What the module reads from [process.env] when it is loaded. *)
Record Config : Type := mkConfig {
  MAX_CACHE_ENTRIES : Z;
  CACHE_PERSIST_ENABLED : bool;
  VEO_FORCE_SINGLE_PASS : bool;
  TIMESTAMP_FALLBACK_OFFSETS : list Z;
  DEFAULT_PERSON_GENERATION : string;
  ENABLE_FACE_SAFETY_RETRY : bool;
  VEO_DISABLE_CACHE : bool;
  (** the list [getModelCandidates()] computes from VEO_MODELS and VEO_MODEL *)
  MODEL_CANDIDATES : list string;
  GOOGLE_GENAI_USE_VERTEXAI : bool;
  GOOGLE_CLOUD_PROJECT : string;
  (** [getApiKey()]: GEMINI_API_KEY, else GOOGLE_API_KEY, else empty *)
  API_KEY : string;
  VEO_USE_OUTPUT_GCS : bool;
  (** VEO_OUTPUT_GCS_URI, trimmed and without its trailing slashes *)
  VEO_OUTPUT_GCS_URI : string
}.

(** The values when no environment variable is set, but for the capacity
    of the cache and the API key. *)
Definition defaultsWith (maxCacheEntries : Z) (apiKey : string) : Config := {|
  MAX_CACHE_ENTRIES := maxCacheEntries;
  CACHE_PERSIST_ENABLED := true;
  VEO_FORCE_SINGLE_PASS := true;
  TIMESTAMP_FALLBACK_OFFSETS := [0; 3; -3; 6; -6; 10; -10; 15; -15];
  DEFAULT_PERSON_GENERATION := "ALLOW_ADULT";
  ENABLE_FACE_SAFETY_RETRY := true;
  VEO_DISABLE_CACHE := false;
  MODEL_CANDIDATES := ["veo-3.1-fast-generate-preview"; "veo-3.1-generate-preview"];
  GOOGLE_GENAI_USE_VERTEXAI := false;
  GOOGLE_CLOUD_PROJECT := "";
  API_KEY := apiKey;
  VEO_USE_OUTPUT_GCS := false;
  VEO_OUTPUT_GCS_URI := ""
|}.

(* ================================================================== *)
(** ** Pure helpers (route.ts, lines 62-244 and 690-721) *)
(* ================================================================== *)

Definition pickSupportedSegmentDuration (requiredSeconds : Z) : Z :=
  if requiredSeconds <=? 4 then 4
  else if requiredSeconds <=? 6 then 6
  else 8.

Definition isFaceSafetyBlock (message : string) : bool :=
  let lower := Js.toLowerCase message in
  Js.includes lower "person/face generation"
  || Js.includes lower "face generation"
  || Js.includes lower "input image contains content that has been blocked".

Definition isUsageGuidelineBlock (message : string) : bool :=
  let lower := Js.toLowerCase message in
  Js.includes lower "violates vertex ai's usage guidelines"
  || Js.includes lower "violates vertex ai usage guidelines"
  || Js.includes lower "input image violates vertex ai's usage guidelines".

Definition isBlockedInputImageError (message : string) : bool :=
  isFaceSafetyBlock message || isUsageGuidelineBlock message.

Definition isMissingSampleError (message : string) : bool :=
  let lower := Js.toLowerCase message in
  Js.includes lower "did not return first split segment"
  || Js.includes lower "did not return second split segment"
  || Js.includes lower "returned no video sample".

(** [Math.floor(candidate * 1000) / 1000]: the whole number of milliseconds
    over 1000. *)
Definition floorMillis (q : Q) : Z := Qfloor (q * 1000).

Definition normalizeMillis (q : Q) : Q := Qmake (floorMillis q) 1000.

Definition numberIn (x : Q) (seen : list Q) : bool :=
  existsb (fun y => Qeq_bool x y) seen.

(** The loop of [buildTimestampCandidates]; [unique] is the set of the values
    pushed so far. *)
Fixpoint candidatesFrom (baseTimestamp : Q) (offsets : list Z) (unique : list Q)
  : list Q :=
  match offsets with
  | [] => []
  | offset :: rest =>
      let candidate := Qmax 0 (baseTimestamp + inject_Z offset) in
      let normalized := normalizeMillis candidate in
      if numberIn normalized unique then candidatesFrom baseTimestamp rest unique
      else normalized :: candidatesFrom baseTimestamp rest (normalized :: unique)
  end.

Definition buildTimestampCandidates (cfg : Config) (baseTimestamp : Q) : list Q :=
  match candidatesFrom baseTimestamp (TIMESTAMP_FALLBACK_OFFSETS cfg) [] with
  | [] => [Qmax 0 baseTimestamp]
  | candidates => candidates
  end.

Record SafetyProfile : Type := mkProfile { personGeneration : string }.

Definition getSafetyProfiles (cfg : Config) : list SafetyProfile :=
  let primary := mkProfile (DEFAULT_PERSON_GENERATION cfg) in
  if ENABLE_FACE_SAFETY_RETRY cfg
     && negb (String.eqb (personGeneration primary) "ALLOW_ALL")
  then [primary; mkProfile "ALLOW_ALL"]
  else [primary].

Record CachedClip : Type := mkClip {
  jobId : string;
  modelUsed : string;
  clipMimeType : string;
  sourceUri : option string;
  videoUrl : string;
  cachedAt : Z;
  requestedTimestampSeconds : Q;
  appliedTimestampSeconds : Q;
  personGenerationUsed : string
}.

(** [raw.replace(/[^a-zA-Z0-9_-]/g, "").trim()] *)
Definition isVideoIdChar (c : ascii) : bool :=
  let n := nat_of_ascii c in
  ((Nat.leb 97 n && Nat.leb n 122) || (Nat.leb 65 n && Nat.leb n 90)
   || (Nat.leb 48 n && Nat.leb n 57) || Nat.eqb n 95 || Nat.eqb n 45)%bool.

Definition sanitizeVideoId (raw : Js.Value) : string :=
  match raw with
  | Js.Str s => Js.trim (Js.filterChars isVideoIdChar s)
  | _ => ""
  end.

(** What a [catch] clause receives. *)
Inductive Thrown : Type :=
| ErrorObject (message : string)
| ThrownString (s : string)
| ThrownOther.

Definition toErrorMessage (error : Thrown) : string :=
  match error with
  | ErrorObject m => m
  | ThrownString s => s
  | ThrownOther => "Unknown Veo error"
  end.

Record ParsedError : Type := mkParsed {
  code : Q;
  status : string;
  message : string
}.

Definition errorMarker : string := "{" ++ dquote ++ "error" ++ dquote ++ ":".

(** [JSON.parse] is a parameter: [None] is its SyntaxError. *)
Definition parseStructuredApiError (jsonParse : string -> option Js.Value)
  (error : Thrown) : ParsedError :=
  let raw := toErrorMessage error in
  let unparsed := mkParsed 0 "" raw in
  match Js.indexOf errorMarker raw with
  | None => unparsed
  | Some start =>
      match jsonParse (Js.slice start raw) with
      | None => unparsed
      | Some parsed =>
          match Js.get parsed "error" with
          | None => unparsed
          | Some err =>
              mkParsed
                (match Js.getOpt err "code" with Js.Num q => q | _ => 0 end)
                (match Js.getOpt err "status" with Js.Str s => s | _ => "" end)
                (match Js.getOpt err "message" with Js.Str s => s | _ => raw end)
          end
      end
  end.

Definition requiredStrings : list string :=
  ["id"; "brandName"; "productName"; "tagline"; "visualDescription";
   "actionScript"; "colorFrom"; "colorTo"].

Definition isNonBlankString (v : Js.Value) : bool :=
  match v with
  | Js.Str s => negb (Nat.eqb (String.length (Js.trim s)) 0)
  | _ => false
  end.

Definition isArrayOfLength (n : nat) (v : Js.Value) : bool :=
  match v with
  | Js.Arr items => Nat.eqb (List.length items) n
  | _ => false
  end.

(** Returns the product itself when it passes, [None] for [null]. *)
Definition validateProduct (product : Js.Value) : option Js.Value :=
  if negb (Js.truthy product) then None
  else if negb (forallb (fun key => isNonBlankString (Js.getOpt product key))
                        requiredStrings) then None
  else if negb (isArrayOfLength 3 (Js.getOpt product "benefits")) then None
  else Some product.

Definition clipContext (raw : Js.Value) : string :=
  match raw with
  | Js.Str s =>
      let clean := Js.trim s in
      if Nat.leb (String.length clean) MAX_CONTEXT_CHARS then clean
      else Js.take MAX_CONTEXT_CHARS clean
  | _ => ""
  end.

Record CacheKeyInput : Type := mkKeyInput {
  kVideoId : string;
  kTimestampSeconds : Q;
  kDurationSeconds : Z;
  kProductId : string;
  kStyle : string;
  kAspectRatio : string;
  kResolution : string;
  kSeedToken : string
}.

Definition buildCacheKey (input : CacheKeyInput) : string :=
  let roundedTs := Qfloor (kTimestampSeconds input * 1000) in
  Js.join ":"
    [kVideoId input; Js.ofZ roundedTs; Js.ofZ (kDurationSeconds input);
     kProductId input; kStyle input; kAspectRatio input; kResolution input;
     kSeedToken input].

(** *** The in-memory cache: [adClipCache], a [Map<string, CachedClip>] *)

Definition Cache : Type := list (string * CachedClip).

Fixpoint mapGet (key : string) (m : Cache) : option CachedClip :=
  match m with
  | [] => None
  | (k, v) :: rest => if String.eqb key k then Some v else mapGet key rest
  end.

(** [Map.prototype.set]: a present key keeps its place, a new one goes last. *)
Fixpoint mapSet (key : string) (value : CachedClip) (m : Cache) : Cache :=
  match m with
  | [] => [(key, value)]
  | (k, v) :: rest =>
      if String.eqb key k then (k, value) :: rest
      else (k, v) :: mapSet key value rest
  end.

Definition mapDelete (key : string) (m : Cache) : Cache :=
  filter (fun kv => negb (String.eqb key (fst kv))) m.

Definition mapSize (m : Cache) : Z := Z.of_nat (List.length m).

(** [m.keys().next().value] *)
Definition firstKey (m : Cache) : option string :=
  match m with
  | [] => None
  | (k, _) :: _ => Some k
  end.

Definition writeCache (cfg : Config) (key : string) (value : CachedClip)
  (adClipCache : Cache) : Cache :=
  let adClipCache := mapSet key value adClipCache in
  if mapSize adClipCache <=? MAX_CACHE_ENTRIES cfg then adClipCache
  else
    match firstKey adClipCache with
    | Some oldestKey =>
        if String.eqb oldestKey "" then adClipCache
        else mapDelete oldestKey adClipCache
    | None => adClipCache
    end.

(* ================================================================== *)
(** ** The outside world *)
(* ================================================================== *)

Record ExtractedFrameImage : Type := mkFrame {
  mimeType : string;
  imageBytes : string
}.

(** How the frame script's process ends: the timer fires first, the spawn
    fails, or the process closes with an exit code (none when a signal
    killed it). *)
Inductive ProcessOutcome : Type :=
| ProcTimedOut
| ProcSpawnError (error : Thrown)
| ProcClosed (exitCode : option Z) (stdout stderr : string).

(** What [fetch(url)] gives: a rejection, or a response whose body may still
    fail to arrive ([None]). *)
Inductive FetchOutcome : Type :=
| FetchRejected
| FetchResponse (ok : bool) (contentType : option string) (body : option string).

Record Video : Type := mkVideo {
  videoBytes : option string;
  uri : option string;
  videoMimeType : option string
}.

Record ResolvedVideo : Type := mkResolved {
  rMimeType : string;
  rBase64 : string;
  rSourceUri : option string
}.

Record Media : Type := mkMedia {
  mediaMimeType : string;
  mediaBase64 : string
}.

(** A finished operation: its name and [response.generatedVideos[0].video]. *)
Record CompletedOperation : Type := mkCompleted {
  operationName : option string;
  generatedVideo : option Video
}.

(** The inputs of [buildPrompt], which fix the prompt text, and the line the
    split path adds. *)
Record Prompt : Type := mkPrompt {
  pTimestampSeconds : Q;
  pDurationSeconds : Z;
  pProduct : Js.Value;
  pContext : string;
  pSegmentNote : string
}.

Record GenerateArgs : Type := mkArgs {
  gModel : string;
  gPrompt : Prompt;
  gImage : ExtractedFrameImage;
  gDurationSeconds : Z;
  gAspectRatio : string;
  gResolution : string;
  gPersonGeneration : string;
  gLastFrame : ExtractedFrameImage;
  gSeed : Z;
  gOutputGcsUri : option string
}.

(** An effect on the world that returns or throws. *)
Definition Eff (W A : Type) : Type := W -> (Thrown + A) * W.

Definition ret {W A : Type} (a : A) : Eff W A := fun w => (inr a, w).

Definition throw {W A : Type} (e : Thrown) : Eff W A := fun w => (inl e, w).

Definition bind {W A B : Type} (c : Eff W A) (k : A -> Eff W B) : Eff W B :=
  fun w =>
    match c w with
    | (inl e, w') => (inl e, w')
    | (inr a, w') => k a w'
    end.

(** [try { c } catch (e) { h(e) }] *)
Definition catch {W A : Type} (c : Eff W A) (h : Thrown -> Eff W A) : Eff W A :=
  fun w =>
    match c w with
    | (inl e, w') => h e w'
    | (inr a, w') => (inr a, w')
    end.

(** [try { c } finally { f }] with an [f] that cannot throw. *)
Definition finally {W A : Type} (c : Eff W A) (f : W -> W) : Eff W A :=
  fun w => let '(r, w') := c w in (r, f w').

(** [await Promise.all([c1, c2])]: both are started, and the first rejection
    in the order of the array is the one reported. *)
Definition both {W A B : Type} (c1 : Eff W A) (c2 : Eff W B) : Eff W (A * B) :=
  fun w =>
    let '(r1, w1) := c1 w in
    let '(r2, w2) := c2 w1 in
    match r1, r2 with
    | inl e, _ => (inl e, w2)
    | inr _, inl e => (inl e, w2)
    | inr a, inr b => (inr (a, b), w2)
    end.

Declare Scope eff_scope.
Delimit Scope eff_scope with eff.
Notation "x <- c ;; k" := (bind c (fun x => k))
  (at level 61, c at next level, right associativity) : eff_scope.
Notation "' p <- c ;; k" := (bind c (fun x => let p := x in k))
  (at level 61, p pattern, c at next level, right associativity) : eff_scope.

(** The oracles.  Each one that touches the world returns the world after the
    call. *)
Record Env (W : Type) : Type := mkEnv {
  (** [JSON.parse]; [None] is a SyntaxError *)
  jsonParse : string -> option Js.Value;
  (** [Buffer.prototype.toString("base64")] *)
  toBase64 : string -> string;
  (** [Number.prototype.toString] *)
  numberToString : Q -> string;
  (** the python frame script, raced against FRAME_EXTRACT_TIMEOUT_MS *)
  spawnFrameScript : string -> Q -> W -> ProcessOutcome * W;
  fetchUrl : string -> W -> FetchOutcome * W;
  (** [ai.models.generateVideos]; the result is the operation handle *)
  generateVideos : GenerateArgs -> Eff W string;
  (** the polling loop on an operation handle, up to MAX_WAIT_MS *)
  pollUntilDone : string -> Eff W CompletedOperation;
  (** the download paths of [videoToBase64] for a video without inline bytes *)
  downloadVideo : Video -> Eff W ResolvedVideo;
  stitchToTargetDuration : string -> string -> Z -> Eff W Media;
  (** [fs.mkdtemp] of [extendVideoWithHold] *)
  makeTempDir : Eff W unit;
  (** writing the input file and resolving the ffmpeg binary *)
  openExtendWorkspace : string -> Eff W unit;
  (** one ffmpeg pad run, with ([true]) or without the audio pad *)
  runPad : bool -> Q -> Eff W unit;
  readExtended : Eff W string;
  removeWorkspace : W -> W;
  (** [Date.now()] *)
  dateNow : W -> Z * W;
  (** [Math.floor(Math.random() * 1_000_000_000)] *)
  randomSeed : W -> Z * W;
  (** reading, parsing and checking the cache file of a key; [None] on any
      failure *)
  readCacheFile : string -> W -> option CachedClip * W;
  (** [mkdir] and [writeFile] of the cache file; a failure is only logged *)
  writeCacheFile : string -> CachedClip -> W -> W;
  (** [fs.rm] of the cache directory; a failure is ignored *)
  removeCacheDir : W -> W
}.

Arguments jsonParse {W}.
Arguments toBase64 {W}.
Arguments numberToString {W}.
Arguments spawnFrameScript {W}.
Arguments fetchUrl {W}.
Arguments generateVideos {W}.
Arguments pollUntilDone {W}.
Arguments downloadVideo {W}.
Arguments stitchToTargetDuration {W}.
Arguments makeTempDir {W}.
Arguments openExtendWorkspace {W}.
Arguments runPad {W}.
Arguments readExtended {W}.
Arguments removeWorkspace {W}.
Arguments dateNow {W}.
Arguments randomSeed {W}.
Arguments readCacheFile {W}.
Arguments writeCacheFile {W}.
Arguments removeCacheDir {W}.

(** [value || fallback] on an optional string: absent and empty are falsy. *)
Definition orDefault (value : option string) (fallback : string) : string :=
  match value with
  | Some v => if String.eqb v "" then fallback else v
  | None => fallback
  end.

(** [value || null] *)
Definition orNull (value : option string) : option string :=
  match value with
  | Some v => if String.eqb v "" then None else Some v
  | None => None
  end.

(* ================================================================== *)
(** ** Media post-processor and generation client (lines 382-573) *)
(* ================================================================== *)

Section Media.
Context {W : Type} (env : Env W).

Definition videoToBase64 (video : Video) : Eff W ResolvedVideo :=
  match orNull (videoBytes video) with
  | Some bytes =>
      ret (mkResolved (orDefault (videoMimeType video) "video/mp4") bytes
             (orNull (uri video)))
  | None => downloadVideo env video
  end.

Definition extendVideoWithHold (videoBase64 : string) (holdSeconds : Q)
  : Eff W Media :=
  if Qle_bool holdSeconds 0 then ret (mkMedia "video/mp4" videoBase64)
  else
    (_ <- makeTempDir env ;;
     finally
       (_ <- openExtendWorkspace env videoBase64 ;;
        _ <- catch (runPad env true holdSeconds)
                   (fun _ => runPad env false holdSeconds) ;;
        bytes <- readExtended env ;;
        ret (mkMedia "video/mp4" bytes))
       (removeWorkspace env))%eff.

End Media.

(* ================================================================== *)
(** ** Frame provider (lines 575-680) *)
(* ================================================================== *)

(** What the provider did, in order: one run of the script, then the
    thumbnail fetches. *)
Inductive FrameEvent : Type :=
| FeScript (videoId : string) (timestampSeconds : Q) (outcome : ProcessOutcome)
| FeFetch (url : string) (outcome : FetchOutcome).

Section FrameProvider.
Context {W : Type} (env : Env W).

(** The handler of the script's [close] event, and of its timer and [error]
    event.  A TypeError or SyntaxError raised while reading the output is an
    [Error] whose text is the engine's. *)
Definition frameFromProcess (outcome : ProcessOutcome)
  : Thrown + ExtractedFrameImage :=
  match outcome with
  | ProcTimedOut => inl (ErrorObject "Timed out while extracting YouTube frame.")
  | ProcSpawnError error => inl error
  | ProcClosed exitCode stdout stderr =>
      match exitCode with
      | Some 0 =>
          match jsonParse env (Js.trim stdout) with
          | None => inl (ErrorObject "SyntaxError")
          | Some parsed =>
              match Js.get parsed "error" with
              | None => inl (ErrorObject "TypeError")
              | Some (Js.Str error) =>
                  let details :=
                    match Js.getOpt parsed "details" with
                    | Js.Str d => " " ++ d
                    | _ => ""
                    end in
                  inl (ErrorObject (error ++ details))
              | Some _ =>
                  match Js.getOpt parsed "mimeType", Js.getOpt parsed "imageBytes" with
                  | Js.Str m, Js.Str b => inr (mkFrame m b)
                  | _, _ => inl (ErrorObject "Frame extraction returned malformed output.")
                  end
              end
          end
      | _ =>
          inl (ErrorObject
                 (orDefault (Some (Js.trim stderr))
                    ("Frame extraction failed with exit code "
                       ++ match exitCode with Some c => Js.ofZ c | None => "null" end
                       ++ ".")))
      end
  end.

Definition extractFrameFromYouTubeViaPython (videoId : string)
  (timestampSeconds : Q) (w : W)
  : (Thrown + ExtractedFrameImage) * W * list FrameEvent :=
  let ts := Qmax 0 timestampSeconds in
  let '(outcome, w1) := spawnFrameScript env videoId ts w in
  (frameFromProcess outcome, w1, [FeScript videoId ts outcome]).

Definition thumbnailCandidates (videoId : string) : list string :=
  ["https://i.ytimg.com/vi/" ++ videoId ++ "/maxresdefault.jpg";
   "https://i.ytimg.com/vi/" ++ videoId ++ "/sddefault.jpg";
   "https://i.ytimg.com/vi/" ++ videoId ++ "/hqdefault.jpg"].

(** One turn of the loop body: the frame a fetch yields, or [None] when the
    loop goes on ([continue], or the empty [catch]). *)
Definition frameFromFetch (outcome : FetchOutcome) : option ExtractedFrameImage :=
  match outcome with
  | FetchRejected => None
  | FetchResponse ok contentType body =>
      if negb ok then None
      else match body with
           | None => None
           | Some bytes =>
               if Nat.eqb (String.length bytes) 0 then None
               else Some (mkFrame (orDefault contentType "image/jpeg")
                                  (toBase64 env bytes))
           end
  end.

Fixpoint thumbnailLoop (candidates : list string) (w : W)
  : (Thrown + ExtractedFrameImage) * W * list FrameEvent :=
  match candidates with
  | [] => (inl (ErrorObject "Failed to fetch fallback thumbnail frame."), w, [])
  | url :: rest =>
      let '(outcome, w1) := fetchUrl env url w in
      match frameFromFetch outcome with
      | Some frame => (inr frame, w1, [FeFetch url outcome])
      | None =>
          let '(result, w2, events) := thumbnailLoop rest w1 in
          (result, w2, FeFetch url outcome :: events)
      end
  end.

Definition extractFrameFromThumbnail (videoId : string) (w : W)
  : (Thrown + ExtractedFrameImage) * W * list FrameEvent :=
  thumbnailLoop (thumbnailCandidates videoId) w.

Definition extractFrameFromYouTube (videoId : string) (timestampSeconds : Q)
  (w : W) : (Thrown + ExtractedFrameImage) * W * list FrameEvent :=
  match extractFrameFromYouTubeViaPython videoId timestampSeconds w with
  | (inr frame, w1, events) => (inr frame, w1, events)
  | (inl _, w1, events) =>
      let '(result, w2, more) := extractFrameFromThumbnail videoId w1 in
      (result, w2, (events ++ more)%list)
  end.

End FrameProvider.

(* ================================================================== *)
(** ** The request (lines 758-804) *)
(* ================================================================== *)

Inductive Response : Type :=
| Ok200 (clip : CachedClip) (cacheHit : bool)
| ErrorResponse (httpStatus : Z) (error : string) (detail : option string)
| Uncaught (error : Thrown).

(** The constants the handler computes from the body before it does
    anything else. *)
Record Request : Type := mkRequest {
  product : Js.Value;
  videoId : string;
  timestampSeconds : Q;
  durationSeconds : Z;
  context : string;
  style : string;
  aspectRatio : string;
  resolution : string;
  requestedSeed : option Z;
  bypassCache : bool
}.

(** [typeof v === "string" && v.trim().length > 0 ? v.trim() : fallback] *)
Definition trimmedOr (v : Js.Value) (fallback : string) : string :=
  match v with
  | Js.Str s => if Nat.ltb 0 (String.length (Js.trim s)) then Js.trim s else fallback
  | _ => fallback
  end.

Definition productId (product : Js.Value) : string :=
  match Js.getOpt product "id" with Js.Str s => s | _ => "" end.

Definition seedToken (req : Request) : string :=
  match requestedSeed req with
  | None => "auto"
  | Some seed => Js.ofZ seed
  end.

Definition cacheKey (req : Request) : string :=
  buildCacheKey
    (mkKeyInput (videoId req) (timestampSeconds req) (durationSeconds req)
       (productId (product req)) (style req) (aspectRatio req) (resolution req)
       (seedToken req)).

(** Lines 766-804.  Reading [body.product] of a [null] body raises a
    TypeError that nothing catches. *)
Definition readRequest (cfg : Config) (body : Js.Value) : Response + Request :=
  match Js.get body "product" with
  | None => inl (Uncaught (ErrorObject "TypeError"))
  | Some rawProduct =>
      match validateProduct rawProduct with
      | None =>
          inl (ErrorResponse 400 "Invalid product payload for ad generation." None)
      | Some product =>
          let videoId := sanitizeVideoId (Js.getOpt body "videoId") in
          if String.eqb videoId "" then
            inl (ErrorResponse 400 "Missing valid videoId for Veo ad generation." None)
          else
            inr {|
              product := product;
              videoId := videoId;
              timestampSeconds :=
                match Js.getOpt body "timestampSeconds" with
                | Js.Num t => Qmax 0 t
                | _ => 0%Q
                end;
              durationSeconds := AD_INSERT_DURATION_SECONDS;
              context := clipContext (Js.getOpt body "context");
              style := trimmedOr (Js.getOpt body "style") "ad-possession";
              aspectRatio := trimmedOr (Js.getOpt body "aspectRatio") DEFAULT_ASPECT_RATIO;
              resolution := trimmedOr (Js.getOpt body "resolution") DEFAULT_RESOLUTION;
              requestedSeed :=
                match Js.getOpt body "seed" with
                | Js.Num n => Some (Qfloor (Qabs n))
                | _ => None
                end;
              bypassCache :=
                match Js.getOpt body "bypassCache" with
                | Js.Bool true => true
                | _ => VEO_DISABLE_CACHE cfg
                end
            |}
      end
  end.

(** Lines 824-829. *)
Definition requiresSplit (cfg : Config) (req : Request) : bool :=
  negb (VEO_FORCE_SINGLE_PASS cfg)
  && (VEO_MAX_IMAGE_TO_VIDEO_SECONDS <? durationSeconds req).

Definition generatedDurationSeconds (cfg : Config) (req : Request) : Z :=
  if requiresSplit cfg req then VEO_MAX_IMAGE_TO_VIDEO_SECONDS
  else Z.min (durationSeconds req) VEO_MAX_IMAGE_TO_VIDEO_SECONDS.

Definition secondKeepSeconds (cfg : Config) (req : Request) : Z :=
  if requiresSplit cfg req
  then Z.max 0 (durationSeconds req - generatedDurationSeconds cfg req)
  else 0.

Definition holdExtensionSeconds (cfg : Config) (req : Request) : Z :=
  if negb (requiresSplit cfg req)
  then Z.max 0 (durationSeconds req - generatedDurationSeconds cfg req)
  else 0.

(** The client itself carries nothing the handler looks at. *)
Definition createClient (cfg : Config) : Thrown + unit :=
  if GOOGLE_GENAI_USE_VERTEXAI cfg then
    if String.eqb (GOOGLE_CLOUD_PROJECT cfg) "" then
      inl (ErrorObject
             "GOOGLE_CLOUD_PROJECT is required when GOOGLE_GENAI_USE_VERTEXAI=true.")
    else inr tt
  else if String.eqb (API_KEY cfg) "" then
    inl (ErrorObject "Missing GEMINI_API_KEY (or GOOGLE_API_KEY) for Veo.")
  else inr tt.

Definition buildOutputGcsUri (cfg : Config) (videoId : string)
  (timestampSeconds : Q) (productId : string) : option string :=
  let base := VEO_OUTPUT_GCS_URI cfg in
  if String.eqb base "" then None
  else
    let safeTs := Qfloor timestampSeconds in
    let safeProduct := Js.filterChars isVideoIdChar productId in
    Some (base ++ "/" ++ videoId ++ "/" ++ Js.ofZ safeTs ++ "-" ++ safeProduct).

(* ================================================================== *)
(** ** The handler's state and its log *)
(* ================================================================== *)

Record State (W : Type) : Type := mkState {
  adClipCache : Cache;
  world : W
}.

Arguments mkState {W}.
Arguments adClipCache {W}.
Arguments world {W}.

Record Frames : Type := mkFrames {
  firstFrame : ExtractedFrameImage;
  middleFrame : option ExtractedFrameImage;
  lastFrame : ExtractedFrameImage
}.

Inductive AttemptResult : Type :=
| Generated (clip : CachedClip)
| Failed (parsed : ParsedError).

(** One turn of the innermost loop body: where it stood, what it sent, how
    it ended. *)
Record Attempt : Type := mkAttempt {
  aCandidateIndex : nat;
  aModelIndex : nat;
  aProfileIndex : nat;
  aTimestampSeconds : Q;
  aModel : string;
  aProfile : SafetyProfile;
  aFrames : Frames;
  aResult : AttemptResult
}.

Inductive Event : Type :=
| EvReadPersistent (key : string)
| EvExtractFrames (candidateIndex : nat) (candidateTimestampSeconds : Q)
    (provider : list FrameEvent)
| EvAttempt (a : Attempt)
| EvWriteCache (key : string) (clip : CachedClip)
| EvWritePersistent (key : string) (clip : CachedClip).

Inductive LoopExit : Type :=
| Returned (response : Response)
| BlockedFrame
| Finished.

(* ================================================================== *)
(** ** The orchestrator (lines 806-1089) *)
(* ================================================================== *)

Section Orchestrator.
Context {W : Type} (cfg : Config) (env : Env W).

Definition readPersistentCache (key : string) (w : W)
  : option CachedClip * W * list Event :=
  if CACHE_PERSIST_ENABLED cfg then
    let '(hit, w1) := readCacheFile env key w in (hit, w1, [EvReadPersistent key])
  else (None, w, []).

Definition writePersistentCache (key : string) (value : CachedClip) (w : W)
  : W * list Event :=
  if CACHE_PERSIST_ENABLED cfg
  then (writeCacheFile env key value w, [EvWritePersistent key value])
  else (w, []).

(** Lines 806-822: the clip to answer with, if a cache layer has one. *)
Definition lookupCaches (req : Request) (s : State W)
  : option CachedClip * State W * list Event :=
  if bypassCache req then (None, s, [])
  else
    match mapGet (cacheKey req) (adClipCache s) with
    | Some cacheHit => (Some cacheHit, s, [])
    | None =>
        let '(diskHit, w1, events) := readPersistentCache (cacheKey req) (world s) in
        match diskHit with
        | Some hit =>
            (Some hit,
             mkState (writeCache cfg (cacheKey req) hit (adClipCache s)) w1,
             (events ++ [EvWriteCache (cacheKey req) hit])%list)
        | None => (None, mkState (adClipCache s) w1, events)
        end
    end.

Variable req : Request.
Variable seedBase : Z.

(** Lines 850-866: the two or three frames of a candidate, fetched together. *)
Definition acquireFrames (candidateTimestampSeconds : Q) (w : W)
  : (Thrown + Frames) * W * list FrameEvent :=
  let generated := inject_Z (generatedDurationSeconds cfg req) in
  let '(first, w1, ev1) :=
    extractFrameFromYouTube env (videoId req) candidateTimestampSeconds w in
  if requiresSplit cfg req then
    let '(middle, w2, ev2) :=
      extractFrameFromYouTube env (videoId req)
        (candidateTimestampSeconds + generated) w1 in
    let '(last, w3, ev3) :=
      extractFrameFromYouTube env (videoId req)
        (candidateTimestampSeconds + inject_Z (durationSeconds req)) w2 in
    (match first, middle, last with
     | inl e, _, _ => inl e
     | _, inl e, _ => inl e
     | _, _, inl e => inl e
     | inr f, inr m, inr l => inr (mkFrames f (Some m) l)
     end, w3, (ev1 ++ ev2 ++ ev3)%list)
  else
    let '(last, w2, ev2) :=
      extractFrameFromYouTube env (videoId req)
        (candidateTimestampSeconds + generated) w1 in
    (match first, last with
     | inl e, _ => inl e
     | _, inl e => inl e
     | inr f, inr l => inr (mkFrames f None l)
     end, w2, (ev1 ++ ev2)%list).

(** What stays fixed while the models and profiles of one candidate are
    tried. *)
Record Candidate : Type := mkCandidate {
  candidateIndex : nat;
  candidateTimestampSeconds : Q;
  frames : Frames
}.

Definition finalPrompt (cand : Candidate) : Prompt :=
  mkPrompt (candidateTimestampSeconds cand)
    (if requiresSplit cfg req then durationSeconds req
     else generatedDurationSeconds cfg req)
    (product req) (context req) "".

Definition effectiveOutputGcsUri (cand : Candidate) : option string :=
  if VEO_USE_OUTPUT_GCS cfg
  then buildOutputGcsUri cfg (videoId req) (candidateTimestampSeconds cand)
         (productId (product req))
  else None.

Definition dataUrl (mime base64 : string) : string :=
  "data:" ++ mime ++ ";base64," ++ base64.

Definition now : Eff W Z := fun w => let '(t, w1) := dateNow env w in (inr t, w1).

(** Lines 973-1020: one single-segment generation. *)
Definition generateSingle (cand : Candidate) (model : string)
  (profile : SafetyProfile) : Eff W CachedClip :=
  (initialOperation <-
     generateVideos env
       (mkArgs model (finalPrompt cand) (firstFrame (frames cand))
          (generatedDurationSeconds cfg req) (aspectRatio req) (resolution req)
          (personGeneration profile) (lastFrame (frames cand)) seedBase
          (effectiveOutputGcsUri cand)) ;;
   finalOperation <- pollUntilDone env initialOperation ;;
   match generatedVideo finalOperation with
   | None => throw (ErrorObject "Veo finished but returned no video sample.")
   | Some video =>
       resolved <- videoToBase64 env video ;;
       extended <-
         (if 0 <? holdExtensionSeconds cfg req
          then (m <- extendVideoWithHold env (rBase64 resolved)
                       (inject_Z (holdExtensionSeconds cfg req)) ;;
                ret (Some m))
          else ret None) ;;
       jobId <-
         (match orNull (operationName finalOperation) with
          | Some name => ret name
          | None => (t <- now ;; ret ("veo-op-" ++ Js.ofZ t))
          end) ;;
       cachedAt <- now ;;
       ret {|
         jobId := jobId;
         modelUsed := model;
         clipMimeType :=
           match extended with
           | Some m => orDefault (Some (mediaMimeType m)) (rMimeType resolved)
           | None => rMimeType resolved
           end;
         sourceUri :=
           match extended with
           | Some _ => None
           | None => rSourceUri resolved
           end;
         videoUrl :=
           match extended with
           | Some m => dataUrl (mediaMimeType m) (mediaBase64 m)
           | None => dataUrl (rMimeType resolved) (rBase64 resolved)
           end;
         cachedAt := cachedAt;
         requestedTimestampSeconds := timestampSeconds req;
         appliedTimestampSeconds := candidateTimestampSeconds cand;
         personGenerationUsed := personGeneration profile
       |}
   end)%eff.

(** Lines 889-971: two segments that share the middle frame, stitched. *)
Definition generateSplit (cand : Candidate) (model : string)
  (profile : SafetyProfile) : Eff W CachedClip :=
  let middle :=
    match middleFrame (frames cand) with
    | Some m => m
    | None => firstFrame (frames cand)
    end in
  let prompt1 :=
    mkPrompt (pTimestampSeconds (finalPrompt cand)) (pDurationSeconds (finalPrompt cand))
      (product req) (context req)
      "Segment: part 1 of 2. Keep continuity and end exactly on provided last frame." in
  let prompt2 :=
    mkPrompt (pTimestampSeconds (finalPrompt cand)) (pDurationSeconds (finalPrompt cand))
      (product req) (context req)
      "Segment: part 2 of 2. Continue naturally and end exactly on provided last frame." in
  let secondGenerateDuration :=
    pickSupportedSegmentDuration (secondKeepSeconds cfg req) in
  let gcs part := option_map (fun u => u ++ part) (effectiveOutputGcsUri cand) in
  ('(firstOperation, secondOperation) <-
     both
       (generateVideos env
          (mkArgs model prompt1 (firstFrame (frames cand))
             (generatedDurationSeconds cfg req) (aspectRatio req) (resolution req)
             (personGeneration profile) middle seedBase (gcs "/part-1")))
       (generateVideos env
          (mkArgs model prompt2 middle secondGenerateDuration (aspectRatio req)
             (resolution req) (personGeneration profile) (lastFrame (frames cand))
             ((seedBase + 1) mod 1000000000) (gcs "/part-2"))) ;;
   '(firstCompleted, secondCompleted) <-
     both (pollUntilDone env firstOperation) (pollUntilDone env secondOperation) ;;
   match generatedVideo firstCompleted with
   | None => throw (ErrorObject "Veo did not return first split segment.")
   | Some firstGenerated =>
       match generatedVideo secondCompleted with
       | None => throw (ErrorObject "Veo did not return second split segment.")
       | Some secondGenerated =>
           firstResolved <- videoToBase64 env firstGenerated ;;
           secondResolved <- videoToBase64 env secondGenerated ;;
           stitched <-
             stitchToTargetDuration env (rBase64 firstResolved)
               (rBase64 secondResolved) (secondKeepSeconds cfg req) ;;
           cachedAt <- now ;;
           ret {|
             jobId :=
               orDefault (operationName firstCompleted) "veo-part-1" ++ "|"
                 ++ orDefault (operationName secondCompleted) "veo-part-2";
             modelUsed := model;
             clipMimeType := mediaMimeType stitched;
             sourceUri := None;
             videoUrl := dataUrl (mediaMimeType stitched) (mediaBase64 stitched);
             cachedAt := cachedAt;
             requestedTimestampSeconds := timestampSeconds req;
             appliedTimestampSeconds := candidateTimestampSeconds cand;
             personGenerationUsed := personGeneration profile
           |}
       end
   end)%eff.

(** The [try] block up to the cache writes. *)
Definition generate (cand : Candidate) (model : string) (profile : SafetyProfile)
  : Eff W CachedClip :=
  if requiresSplit cfg req then generateSplit cand model profile
  else generateSingle cand model profile.

(** The two terminal classifications of the [catch] block, lines 1035-1052. *)
Definition isPermissionDenied (parsed : ParsedError) : bool :=
  Qeq_bool (code parsed) 403 || String.eqb (status parsed) "PERMISSION_DENIED".

Definition isQuotaExceeded (parsed : ParsedError) : bool :=
  Qeq_bool (code parsed) 429 || String.eqb (status parsed) "RESOURCE_EXHAUSTED".

Definition safetyProfiles : list SafetyProfile := getSafetyProfiles cfg.

Definition models : list string := MODEL_CANDIDATES cfg.

(** Lines 884-1073, for the profiles from [profileIndex] on.  [Finished] is
    the loop left with [moveToNextCandidate] still false, by the plain
    [break] or by its condition. *)
Fixpoint profileLoop (cand : Candidate) (modelIndex : nat) (model : string)
  (profileIndex : nat) (remaining : list SafetyProfile) (lastError : string)
  (s : State W) {struct remaining}
  : LoopExit * string * State W * list Event :=
  match remaining with
  | [] => (Finished, lastError, s, [])
  | profile :: rest =>
      let attempt :=
        mkAttempt (candidateIndex cand) modelIndex profileIndex
          (candidateTimestampSeconds cand) model profile (frames cand) in
      match generate cand model profile (world s) with
      | (inr generatedResponse, w1) =>
          let event := EvAttempt (attempt (Generated generatedResponse)) in
          if bypassCache req then
            (Returned (Ok200 generatedResponse false), lastError,
             mkState (adClipCache s) w1, [event])
          else
            let '(w2, persisted) :=
              writePersistentCache (cacheKey req) generatedResponse w1 in
            (Returned (Ok200 generatedResponse false), lastError,
             mkState (writeCache cfg (cacheKey req) generatedResponse (adClipCache s)) w2,
             (event :: EvWriteCache (cacheKey req) generatedResponse :: persisted))
      | (inl error, w1) =>
          let parsed := parseStructuredApiError (jsonParse env) error in
          let lastError := message parsed in
          let event := EvAttempt (attempt (Failed parsed)) in
          let s1 := mkState (adClipCache s) w1 in
          if isPermissionDenied parsed then
            (Returned
               (ErrorResponse 403
                  "Vertex permission denied for current credentials/project."
                  (Some (message parsed))),
             lastError, s1, [event])
          else if isQuotaExceeded parsed then
            (Returned
               (ErrorResponse 429
                  "Veo quota exceeded for current billing/quota project."
                  (Some (message parsed))),
             lastError, s1, [event])
          else
            let blockedInput := isBlockedInputImageError (message parsed) in
            let missingSample := isMissingSampleError (message parsed) in
            let retryableFrameIssue := blockedInput || missingSample in
            let hasRetryProfile :=
              Nat.ltb profileIndex (List.length safetyProfiles - 1) in
            if retryableFrameIssue && hasRetryProfile then
              let '(exit, lastError, s2, events) :=
                profileLoop cand modelIndex model (S profileIndex) rest lastError s1 in
              (exit, lastError, s2, event :: events)
            else if retryableFrameIssue then
              (BlockedFrame, lastError, s1, [event])
            else (Finished, lastError, s1, [event])
      end
  end.

(** Lines 882-1077.  [BlockedFrame] is the loop left with
    [blockedFrameForCandidate] set, [Finished] with it still false. *)
Fixpoint modelLoop (cand : Candidate) (modelIndex : nat) (remaining : list string)
  (lastError : string) (s : State W) {struct remaining}
  : LoopExit * string * State W * list Event :=
  match remaining with
  | [] => (Finished, lastError, s, [])
  | model :: rest =>
      let '(exit, lastError, s1, events) :=
        profileLoop cand modelIndex model 0 safetyProfiles lastError s in
      match exit with
      | Returned response => (Returned response, lastError, s1, events)
      | BlockedFrame => (BlockedFrame, lastError, s1, events)
      | Finished =>
          let '(exit, lastError, s2, more) :=
            modelLoop cand (S modelIndex) rest lastError s1 in
          (exit, lastError, s2, (events ++ more)%list)
      end
  end.

(** Lines 846-1083.  The frames a fulfilled [Promise.all] yields are objects,
    so the check of line 867 never fires.  The result is the response of a
    [return] inside the loop, or [None] when the loop is left. *)
Fixpoint candidateLoop (index : nat) (remaining : list Q) (lastError : string)
  (s : State W) {struct remaining}
  : option Response * string * State W * list Event :=
  match remaining with
  | [] => (None, lastError, s, [])
  | candidateTimestampSeconds :: rest =>
      let '(acquired, w1, provider) :=
        acquireFrames candidateTimestampSeconds (world s) in
      let event := EvExtractFrames index candidateTimestampSeconds provider in
      let s1 := mkState (adClipCache s) w1 in
      match acquired with
      | inl error =>
          let lastError :=
            "Failed to extract framing images near "
              ++ numberToString env candidateTimestampSeconds ++ "s. "
              ++ toErrorMessage error in
          let '(response, lastError, s2, events) :=
            candidateLoop (S index) rest lastError s1 in
          (response, lastError, s2, event :: events)
      | inr frames =>
          let cand := mkCandidate index candidateTimestampSeconds frames in
          let '(exit, lastError, s2, events) := modelLoop cand 0 models lastError s1 in
          match exit with
          | Returned response => (Some response, lastError, s2, event :: events)
          | BlockedFrame =>
              let '(response, lastError, s3, more) :=
                candidateLoop (S index) rest lastError s2 in
              (response, lastError, s3, (event :: events ++ more)%list)
          | Finished => (None, lastError, s2, event :: events)
          end
      end
  end.

End Orchestrator.

Section Handler.
Context {W : Type} (cfg : Config) (env : Env W).

(** Lines 806-1089: the handler once the request is read. *)
Definition serve (req : Request) (s : State W)
  : Response * State W * list Event :=
  let '(hit, s1, looked) := lookupCaches cfg env req s in
  match hit with
  | Some clip => (Ok200 clip true, s1, looked)
  | None =>
      match createClient cfg with
      | inl error => (ErrorResponse 500 (toErrorMessage error) None, s1, looked)
      | inr _ =>
          let '(seedBase, w2) :=
            match requestedSeed req with
            | None => randomSeed env (world s1)
            | Some seed => (seed, world s1)
            end in
          let '(response, lastError, s3, events) :=
            candidateLoop cfg env req seedBase 0
              (buildTimestampCandidates cfg (timestampSeconds req))
              "Unknown Veo generation failure."
              (mkState (adClipCache s1) w2) in
          (match response with
           | Some r => r
           | None =>
               ErrorResponse 500
                 ("Veo generation failed for all configured models. Last error: "
                    ++ lastError) None
           end, s3, (looked ++ events)%list)
      end
  end.

(** The route handler.  [None] is a request whose body is not JSON. *)
Definition POST (body : option Js.Value) (s : State W)
  : Response * State W * list Event :=
  match body with
  | None => (ErrorResponse 400 "Invalid JSON payload." None, s, [])
  | Some json =>
      match readRequest cfg json with
      | inl response => (response, s, [])
      | inr req => serve req s
      end
  end.

(** The [DELETE] handler: the count it reports and the emptied cache. *)
Definition DELETE (s : State W) : Z * State W :=
  (mapSize (adClipCache s),
   mkState []
     (if CACHE_PERSIST_ENABLED cfg then removeCacheDir env (world s) else world s)).

End Handler.

(* ================================================================== *)
(** ** A scripted world, to run the handler on concrete requests *)
(* ================================================================== *)

Module Sim.

(** The world counts the calls made to the outside. *)
Definition World : Type := nat.

Record Script : Type := mkScript {
  frameOutcome : string -> Q -> ProcessOutcome;
  fetchOutcome : string -> FetchOutcome;
  generateOutcome : GenerateArgs -> Thrown + string;
  pollOutcome : string -> Thrown + CompletedOperation
}.

(** A [JSON.parse] for the two texts the scripts produce: the frame script's
    output, written [frame:<bytes>], and an API error payload, read as a
    PERMISSION_DENIED error. *)
Definition parse (text : string) : option Js.Value :=
  if Js.startsWith "frame:" text then
    Some (Js.Obj [("mimeType", Js.Str "image/jpeg");
                  ("imageBytes", Js.Str (Js.slice 6 text))])
  else if Js.startsWith errorMarker text then
    Some (Js.Obj [("error",
                   Js.Obj [("code", Js.Num 403);
                           ("status", Js.Str "PERMISSION_DENIED");
                           ("message", Js.Str "caller lacks permission")])])
  else None.

Definition env (script : Script) : Env World := {|
  jsonParse := parse;
  toBase64 := fun bytes => bytes;
  numberToString := fun q => Js.ofZ (Qfloor q);
  spawnFrameScript := fun videoId ts w => (frameOutcome script videoId ts, S w);
  fetchUrl := fun url w => (fetchOutcome script url, S w);
  generateVideos := fun args w => (generateOutcome script args, S w);
  pollUntilDone := fun operation w => (pollOutcome script operation, S w);
  downloadVideo := fun _ w => (inl (ErrorObject "download failed"), S w);
  stitchToTargetDuration := fun a b _ w => (inr (mkMedia "video/mp4" (a ++ b)), S w);
  makeTempDir := fun w => (inr tt, S w);
  openExtendWorkspace := fun _ w => (inr tt, S w);
  runPad := fun _ _ w => (inr tt, S w);
  readExtended := fun w => (inr "extended", S w);
  removeWorkspace := fun w => S w;
  dateNow := fun w => (1700000000000 + Z.of_nat w, S w);
  randomSeed := fun w => (42, S w);
  readCacheFile := fun _ w => (None, S w);
  writeCacheFile := fun _ _ w => S w;
  removeCacheDir := fun w => S w
|}.

(** The frame script answers with a frame named after the second it was
    asked for. *)
Definition frameAt (videoId : string) (ts : Q) : ProcessOutcome :=
  ProcClosed (Some 0) ("frame:" ++ Js.ofZ (Qfloor ts)) "".

Definition inlineVideo : CompletedOperation :=
  mkCompleted (Some "operations/1") (Some (mkVideo (Some "AAAA") None (Some "video/mp4"))).


(** Every frame is found and every generation succeeds. *)
Definition allGood : Script := {|
  frameOutcome := frameAt;
  fetchOutcome := fun _ => FetchRejected;
  generateOutcome := fun _ => inr "operations/1";
  pollOutcome := fun _ => inr inlineVideo
|}.


(** Every generation fails with the same error. *)
Definition failing (error : Thrown) : Script := {|
  frameOutcome := frameAt;
  fetchOutcome := fun _ => FetchRejected;
  generateOutcome := fun _ => inl error;
  pollOutcome := fun _ => inr inlineVideo
|}.

Definition deniedError : Thrown :=
  ErrorObject ("got status: 403 Forbidden. " ++ errorMarker ++ " ... }").

(** The default configuration with an API key. *)
Definition config : Config := defaultsWith 60 "test-key".

Definition productWith (benefits : Js.Value) : Js.Value :=
  Js.Obj [("id", Js.Str "sneaker-01");
          ("brandName", Js.Str "Stride");
          ("productName", Js.Str "Stride One");
          ("tagline", Js.Str "Run further");
          ("visualDescription", Js.Str "white running shoe");
          ("actionScript", Js.Str "laces up and jogs off");
          ("benefits", benefits);
          ("colorFrom", Js.Str "#112233");
          ("colorTo", Js.Str "#445566")].

Definition sampleProduct : Js.Value :=
  productWith (Js.Arr [Js.Str "light"; Js.Str "durable"; Js.Str "cushioned"]).

Definition bodyWith (product : Js.Value) (timestampSeconds : Q)
  (extra : list (string * Js.Value)) : Js.Value :=
  Js.Obj ([("videoId", Js.Str "dQw4w9WgXcQ");
           ("timestampSeconds", Js.Num timestampSeconds);
           ("product", product)] ++ extra)%list.

Definition body (timestampSeconds : Q) (extra : list (string * Js.Value)) : Js.Value :=
  bodyWith sampleProduct timestampSeconds extra.

Definition start : State World := mkState [] O.

Definition emptyBenefits : Js.Value :=
  productWith (Js.Arr [Js.Str ""; Js.Str ""; Js.Str ""]).

(** The same with room for two clips only. *)
Definition smallCache : Config := defaultsWith 2 "test-key".

Definition deniedParsed : ParsedError :=
  mkParsed 403 "PERMISSION_DENIED" "caller lacks permission".

Definition framesOf (first last : string) : Frames :=
  mkFrames (mkFrame "image/jpeg" first) None (mkFrame "image/jpeg" last).

Definition fast : string := "veo-3.1-fast-generate-preview".
Definition standard : string := "veo-3.1-generate-preview".
Definition adult : SafetyProfile := mkProfile "ALLOW_ADULT".



Definition boom : ParsedError := mkParsed 0 "" "boom".

(** The attempts of the run in which every generation fails with [boom],
    for a request at second 12. *)
Definition boomAttempt (modelIndex : nat) (model : string) : Attempt :=
  mkAttempt 0 modelIndex 0 (12000 # 1000) model adult (framesOf "12" "20")
    (Failed boom).

(** What the handler reads from [body timestampSeconds []]. *)
Definition requestAt (timestampSeconds : Q) : Request :=
  mkRequest sampleProduct "dQw4w9WgXcQ" timestampSeconds 8 "" "ad-possession"
    "16:9" "720p" None false.


(** The clip of a 200 answer. *)
Definition clipOf (response : Response) : CachedClip :=
  match response with
  | Ok200 c _ => c
  | _ => mkClip "" "" "" None "" 0 0 0 ""
  end.

Definition clip (job : string) : CachedClip :=
  mkClip job "veo-3.1-fast-generate-preview" "video/mp4" None
    "data:video/mp4;base64,AAAA" 1700000000000 12 12 "ALLOW_ADULT".

End Sim.

(* ================================================================== *)
(** ** Vocabulary of the properties *)
(* ================================================================== *)



(** The accesses to the in-memory cache: [adClipCache.get] leaves the map as
    it is, [writeCache] is the only writer. *)
Inductive CacheOp : Type :=
| OpGet (key : string)
| OpPut (key : string) (value : CachedClip).

Definition applyOp (cfg : Config) (cache : Cache) (op : CacheOp) : Cache :=
  match op with
  | OpGet _ => cache
  | OpPut key value => writeCache cfg key value cache
  end.

Definition runOps (cfg : Config) (ops : list CacheOp) (cache : Cache) : Cache :=
  fold_left (applyOp cfg) ops cache.

Fixpoint putsOf (ops : list CacheOp) : Cache :=
  match ops with
  | [] => []
  | OpGet _ :: rest => putsOf rest
  | OpPut key value :: rest => (key, value) :: putsOf rest
  end.

(** The last [n] elements of a list. *)
Definition lastN {A : Type} (n : nat) (l : list A) : list A :=
  skipn (List.length l - n) l.

(** Not a string, or a string of white space only. *)
Definition blank (v : Js.Value) : Prop :=
  match v with
  | Js.Str s => Js.trim s = ""
  | _ => True
  end.

(** A product the handler refuses: absent (or otherwise falsy), with one of
    the eight required texts blank, or whose [benefits] is not an array of
    three entries. *)
Definition malformedProduct (p : Js.Value) : Prop :=
  Js.truthy p = false
  \/ (exists key, In key requiredStrings /\ blank (Js.getOpt p key))
  \/ (forall items, Js.getOpt p "benefits" = Js.Arr items -> List.length items <> 3%nat).

(** How the [catch] block of the innermost loop sorts a parsed error, in the
    order of its tests. *)
Inductive ErrorClass : Type :=
| PermissionDenied
| QuotaExceeded
| RetryableFrameIssue
| OtherError.

Definition classify (parsed : ParsedError) : ErrorClass :=
  if isPermissionDenied parsed then PermissionDenied
  else if isQuotaExceeded parsed then QuotaExceeded
  else if isBlockedInputImageError (message parsed)
          || isMissingSampleError (message parsed)
  then RetryableFrameIssue
  else OtherError.

(** The timestamp candidate an event belongs to; the cache events have
    none. *)
Definition eventCandidate (e : Event) : option nat :=
  match e with
  | EvExtractFrames index _ _ => Some index
  | EvAttempt a => Some (aCandidateIndex a)
  | _ => None
  end.

(** The event belongs to candidate [index] or to a later one. *)
Definition fromCandidate (index : nat) (e : Event) : Prop :=
  match eventCandidate e with
  | Some other => (index <= other)%nat
  | None => True
  end.

(** The attempt [a] taken up again at another model and profile: same
    candidate, same timestamp, same frames. *)
Definition retried (a : Attempt) (modelIndex profileIndex : nat) (model : string)
  (profile : SafetyProfile) (result : AttemptResult) : Attempt :=
  mkAttempt (aCandidateIndex a) modelIndex profileIndex (aTimestampSeconds a)
    model profile (aFrames a) result.

(** The next event is the same model's attempt with the next profile. *)
Definition nextProfileStarts (cfg : Config) (a : Attempt) (rest : list Event) : Prop :=
  exists profile result tail,
    nth_error (getSafetyProfiles cfg) (S (aProfileIndex a)) = Some profile
    /\ rest = EvAttempt (retried a (aModelIndex a) (S (aProfileIndex a)) (aModel a)
                           profile result) :: tail.

(** Nothing more happens for this candidate: the log ends, or it goes on
    with the frames of the next candidate and never comes back. *)
Definition nextCandidateStarts (a : Attempt) (rest : list Event) : Prop :=
  Forall (fromCandidate (S (aCandidateIndex a))) rest
  /\ (rest = []
      \/ exists ts provider tail,
           rest = EvExtractFrames (S (aCandidateIndex a)) ts provider :: tail).

(** The next event is the next model's attempt with the first profile; after
    the last model the log ends. *)
Definition nextModelStarts (cfg : Config) (a : Attempt) (rest : list Event) : Prop :=
  if Nat.ltb (S (aModelIndex a)) (List.length (MODEL_CANDIDATES cfg))
  then
    exists model profile result tail,
      nth_error (MODEL_CANDIDATES cfg) (S (aModelIndex a)) = Some model
      /\ nth_error (getSafetyProfiles cfg) 0 = Some profile
      /\ rest = EvAttempt (retried a (S (aModelIndex a)) 0 model profile result) :: tail
  else rest = [].

(** What the log may hold after an attempt. *)
Definition follows (cfg : Config) (a : Attempt) (rest : list Event) : Prop :=
  match aResult a with
  | Generated _ => Forall (fun e => eventCandidate e = None) rest
  | Failed parsed =>
      match classify parsed with
      | PermissionDenied | QuotaExceeded => rest = []
      | RetryableFrameIssue =>
          if Nat.ltb (S (aProfileIndex a)) (List.length (getSafetyProfiles cfg))
          then nextProfileStarts cfg a rest
          else nextCandidateStarts a rest
      | OtherError => nextModelStarts cfg a rest
      end
  end.

(** A log in which every attempt is followed as the policy says. *)
Fixpoint policy (cfg : Config) (log : list Event) : Prop :=
  match log with
  | [] => True
  | EvAttempt a :: rest => follows cfg a rest /\ policy cfg rest
  | _ :: rest => policy cfg rest
  end.

(** The answer that ends the handler after a failed attempt that nothing
    follows. *)
Definition responseAfterFailure (parsed : ParsedError) : Response :=
  match classify parsed with
  | PermissionDenied =>
      ErrorResponse 403 "Vertex permission denied for current credentials/project."
        (Some (message parsed))
  | QuotaExceeded =>
      ErrorResponse 429 "Veo quota exceeded for current billing/quota project."
        (Some (message parsed))
  | _ =>
      ErrorResponse 500
        ("Veo generation failed for all configured models. Last error: "
           ++ message parsed) None
  end.

(** How a loop is left after a failed attempt that nothing follows in it. *)
Definition exitAfterFailure (parsed : ParsedError) : LoopExit :=
  match classify parsed with
  | PermissionDenied | QuotaExceeded => Returned (responseAfterFailure parsed)
  | RetryableFrameIssue => BlockedFrame
  | OtherError => Finished
  end.

(** The in-memory cache a loop leaves behind. *)
Definition cacheAfter (cfg : Config) (req : Request) (exit : LoopExit) (cache : Cache)
  : Cache :=
  match exit with
  | Returned (Ok200 clip _) =>
      if bypassCache req then cache else writeCache cfg (cacheKey req) clip cache
  | _ => cache
  end.

Definition persistEvents (cfg : Config) (key : string) (clip : CachedClip)
  : list Event :=
  if CACHE_PERSIST_ENABLED cfg then [EvWritePersistent key clip] else [].

(** The cache events that follow a successful generation. *)
Definition successWrites (cfg : Config) (req : Request) (clip : CachedClip)
  : list Event :=
  if bypassCache req then []
  else EvWriteCache (cacheKey req) clip :: persistEvents cfg (cacheKey req) clip.

(** The log ends with the successful attempt [a] and its cache writes, and
    the world is the one that attempt and the durable write left. *)
Definition succeededWith {W : Type} (cfg : Config) (env : Env W) (req : Request)
  (seedBase : Z) (clip : CachedClip) (events : list Event) (s' : State W)
  (a : Attempt) : Prop :=
  exists pre w0 w1,
    events = (pre ++ EvAttempt a :: successWrites cfg req clip)%list
    /\ aResult a = Generated clip
    /\ generate cfg env req seedBase
         (mkCandidate (aCandidateIndex a) (aTimestampSeconds a) (aFrames a))
         (aModel a) (aProfile a) w0 = (inr clip, w1)
    /\ world s'
       = if bypassCache req then w1
         else fst (writePersistentCache cfg env (cacheKey req) clip w1).


Definition isCacheWrite (e : Event) : bool :=
  match e with
  | EvWriteCache _ _ | EvWritePersistent _ _ => true
  | _ => false
  end.


(** Case analysis on every [match] a hypothesis still contains. *)
Ltac break_match_in H :=
  repeat match type of H with
         | context [match ?x with _ => _ end] =>
             let E := fresh "E" in destruct x eqn:E; try discriminate H
         end.

(* ================================================================== *)
(** * Properties *)
(* ================================================================== *)

(** ** Media post-processor *)

(** C10. For every clip and every [holdSeconds <= 0], [extendVideoWithHold]
    returns the clip's bytes unchanged and leaves the world as it found it
    (no temp directory, no ffmpeg run); extending its own result again
    therefore gives the same clip. *)
Theorem extend_nonpositive_hold_is_identity :
  forall (W : Type) (env : Env W) (videoBase64 : string) (holdSeconds : Q) (w : W),
    (holdSeconds <= 0)%Q ->
    extendVideoWithHold env videoBase64 holdSeconds w
      = (inr (mkMedia "video/mp4" videoBase64), w)
    /\ (forall (m : Media) (w1 : W),
          extendVideoWithHold env videoBase64 holdSeconds w = (inr m, w1) ->
          extendVideoWithHold env (mediaBase64 m) holdSeconds w1 = (inr m, w1)).
Proof.
  intros W env video hold w Hle.
  assert (Hguard : Qle_bool hold 0 = true) by (apply Qle_bool_iff; exact Hle).
  assert (Hid : forall v w0,
             extendVideoWithHold env v hold w0 = (inr (mkMedia "video/mp4" v), w0)).
  { intros v w0. unfold extendVideoWithHold. rewrite Hguard. reflexivity. }
  split.
  - apply Hid.
  - intros m w1 Hrun. rewrite Hid in Hrun. inversion Hrun; subst. apply Hid.
Qed.

Lemma extend_nonpositive_hold_is_identity_witness :
  extendVideoWithHold (Sim.env Sim.allGood) "AAAA" (-1) 7%nat
    = (inr (mkMedia "video/mp4" "AAAA"), 7%nat).
Proof.
  apply (extend_nonpositive_hold_is_identity Sim.World (Sim.env Sim.allGood)
           "AAAA" (-1) 7%nat).
  unfold Qle; simpl; lia.
Defined.

(** ** Frame provider *)

Section FrameProviderFacts.
Context {W : Type} (env : Env W).




End FrameProviderFacts.


(** ** The in-memory cache *)

Section CacheFacts.

Lemma mapGet_none_iff : forall key (m : Cache),
  mapGet key m = None <-> ~ In key (map fst m).
Proof.
  induction m as [|[k v] rest IH]; simpl.
  - tauto.
  - destruct (String.eqb key k) eqn:E.
    + apply String.eqb_eq in E. subst. split; [discriminate | tauto].
    + apply String.eqb_neq in E. rewrite IH. split; [intros H [H1|H1]; congruence | tauto].
Qed.

Lemma mapSet_absent : forall key value (m : Cache),
  mapGet key m = None -> mapSet key value m = (m ++ [(key, value)])%list.
Proof.
  induction m as [|[k v] rest IH]; simpl; intros H.
  - reflexivity.
  - destruct (String.eqb key k); [discriminate|]. rewrite IH; auto.
Qed.

Lemma mapSet_present : forall key value (m : Cache),
  mapGet key m <> None -> List.length (mapSet key value m) = List.length m.
Proof.
  induction m as [|[k v] rest IH]; simpl; intros H.
  - congruence.
  - destruct (String.eqb key k); simpl; auto.
Qed.

Lemma mapSet_length : forall key value (m : Cache),
  (List.length (mapSet key value m) <= S (List.length m))%nat.
Proof.
  intros key value m. destruct (mapGet key m) eqn:E.
  - rewrite mapSet_present by congruence. lia.
  - rewrite mapSet_absent by assumption. rewrite length_app. simpl. lia.
Qed.

Lemma mapSet_keys_nonempty : forall key value (m : Cache),
  key <> "" -> Forall (fun kv => fst kv <> "") m ->
  Forall (fun kv => fst kv <> "") (mapSet key value m).
Proof.
  induction m as [|[k v] rest IH]; simpl; intros Hk Hm.
  - constructor; auto.
  - inversion Hm; subst. destruct (String.eqb key k); constructor; auto.
Qed.


Lemma mapDelete_absent : forall key (m : Cache),
  ~ In key (map fst m) -> mapDelete key m = m.
Proof.
  unfold mapDelete.
  induction m as [|[k v] rest IH]; simpl; intros H.
  - reflexivity.
  - destruct (String.eqb key k) eqn:E; simpl.
    + apply String.eqb_eq in E. subst. tauto.
    + rewrite IH; tauto.
Qed.

Lemma mapDelete_head : forall key value (rest : Cache),
  ~ In key (map fst rest) -> mapDelete key ((key, value) :: rest) = rest.
Proof.
  intros key value rest H. unfold mapDelete. simpl.
  rewrite String.eqb_refl. simpl. apply mapDelete_absent. exact H.
Qed.

Lemma mapDelete_length_head : forall key value (rest : Cache),
  (List.length (mapDelete key ((key, value) :: rest)) <= List.length rest)%nat.
Proof.
  intros. unfold mapDelete. simpl. rewrite String.eqb_refl. simpl.
  apply filter_length_le.
Qed.

Lemma mapDelete_keys_nonempty : forall key (m : Cache),
  Forall (fun kv => fst kv <> "") m ->
  Forall (fun kv => fst kv <> "") (mapDelete key m).
Proof.
  intros key m H. unfold mapDelete. rewrite Forall_forall in *.
  intros x Hx. apply filter_In in Hx. apply H. tauto.
Qed.

(** [writeCache] keeps a cache of non-empty keys within the capacity. *)
Lemma writeCache_bound : forall cfg key value (cache : Cache),
  0 <= MAX_CACHE_ENTRIES cfg ->
  mapSize cache <= MAX_CACHE_ENTRIES cfg ->
  key <> "" ->
  Forall (fun kv => fst kv <> "") cache ->
  mapSize (writeCache cfg key value cache) <= MAX_CACHE_ENTRIES cfg
  /\ Forall (fun kv => fst kv <> "") (writeCache cfg key value cache).
Proof.
  intros cfg key value cache Hcap Hsize Hkey Hkeys.
  pose proof (mapSet_length key value cache) as Hlen.
  pose proof (mapSet_keys_nonempty key value cache Hkey Hkeys) as Hne.
  unfold writeCache, mapSize in *.
  destruct (Z.leb_spec (Z.of_nat (List.length (mapSet key value cache)))
              (MAX_CACHE_ENTRIES cfg)) as [Hfit|Hover].
  - auto.
  - destruct (mapSet key value cache) as [|[k0 v0] rest] eqn:Hset;
      cbn [List.length firstKey] in *.
    + lia.
    + inversion Hne as [|? ? Hk0 Hrest]; subst. cbn [fst] in Hk0.
      apply String.eqb_neq in Hk0. rewrite Hk0.
      split.
      * pose proof (mapDelete_length_head k0 v0 rest). lia.
      * apply mapDelete_keys_nonempty. exact Hne.
Qed.



Lemma lastN_all : forall (A : Type) n (l : list A),
  (List.length l <= n)%nat -> lastN n l = l.
Proof.
  intros A n l H. unfold lastN. replace (List.length l - n)%nat with O by lia.
  reflexivity.
Qed.

Lemma lastN_length : forall (A : Type) n (l : list A),
  (n <= List.length l)%nat -> List.length (lastN n l) = n.
Proof. intros A n l H. unfold lastN. rewrite length_skipn. lia. Qed.

Lemma lastN_snoc_full : forall (A : Type) n (l : list A) (x : A),
  (n <= List.length l)%nat ->
  lastN n (l ++ [x]) = (skipn 1 (lastN n l ++ [x]))%list.
Proof.
  intros A n l x H. unfold lastN. rewrite length_app. simpl.
  replace (List.length l + 1 - n)%nat with (1 + (List.length l - n))%nat by lia.
  rewrite <- skipn_skipn. f_equal.
  rewrite skipn_app.
  replace (List.length l - n - List.length l)%nat with O by lia.
  reflexivity.
Qed.

Lemma lastN_incl : forall (A : Type) n (l : list A) x, In x (lastN n l) -> In x l.
Proof.
  intros A n l x H. unfold lastN in H.
  rewrite <- (firstn_skipn (List.length l - n) l). apply in_or_app. auto.
Qed.

Lemma lastN_keys_nodup : forall n (l : Cache),
  NoDup (map fst l) -> NoDup (map fst (lastN n l)).
Proof.
  intros n l H. unfold lastN.
  rewrite <- (firstn_skipn (List.length l - n) l) in H.
  rewrite map_app in H. apply NoDup_app_remove_l in H. exact H.
Qed.

(** One put of a fresh key into the cache that holds the last [n] puts. *)
Lemma writeCache_lastN : forall cfg (prior : Cache) key value,
  0 <= MAX_CACHE_ENTRIES cfg ->
  NoDup (map fst (prior ++ [(key, value)])) ->
  Forall (fun kv => fst kv <> "") (prior ++ [(key, value)]) ->
  writeCache cfg key value (lastN (Z.to_nat (MAX_CACHE_ENTRIES cfg)) prior)
    = lastN (Z.to_nat (MAX_CACHE_ENTRIES cfg)) (prior ++ [(key, value)]).
Proof.
  intros cfg prior key value Hcap Hnodup Hkeys.
  set (n := Z.to_nat (MAX_CACHE_ENTRIES cfg)).
  assert (Hn : MAX_CACHE_ENTRIES cfg = Z.of_nat n) by (unfold n; lia).
  rewrite map_app in Hnodup. simpl in Hnodup.
  assert (Habsent : ~ In key (map fst prior)).
  { intros Hin. apply NoDup_remove_2 in Hnodup. apply Hnodup.
    rewrite app_nil_r. exact Hin. }
  assert (Hprior : NoDup (map fst prior)).
  { apply NoDup_remove_1 in Hnodup. rewrite app_nil_r in Hnodup. exact Hnodup. }
  assert (Hget : mapGet key (lastN n prior) = None).
  { apply mapGet_none_iff. intros Hin. apply Habsent.
    apply in_map_iff in Hin. destruct Hin as (x & <- & Hx).
    apply in_map. eapply lastN_incl; eauto. }
  unfold writeCache. rewrite (mapSet_absent _ _ _ Hget). unfold mapSize.
  rewrite length_app. simpl.
  destruct (Nat.le_gt_cases n (List.length prior)) as [Hfull|Hroom].
  - rewrite lastN_snoc_full by assumption.
    pose proof (lastN_length _ n prior Hfull) as Hlen. rewrite Hlen.
    destruct (Z.leb_spec (Z.of_nat (n + 1)) (MAX_CACHE_ENTRIES cfg)); [lia|].
    destruct (lastN n prior) as [|[k0 v0] rest] eqn:Hlast; simpl.
    + destruct (String.eqb key "") eqn:E.
      * apply String.eqb_eq in E. apply Forall_app in Hkeys.
        destruct Hkeys as [_ Hk]. inversion Hk; subst. simpl in *. congruence.
      * unfold mapDelete. simpl. rewrite String.eqb_refl. reflexivity.
    + assert (Hk0 : k0 <> "").
      { apply Forall_app in Hkeys. destruct Hkeys as [Hp _].
        rewrite Forall_forall in Hp.
        apply (Hp (k0, v0)). apply (lastN_incl _ n). rewrite Hlast. left. reflexivity. }
      apply String.eqb_neq in Hk0. rewrite Hk0.
      replace ((k0, v0) :: rest ++ [(key, value)])%list
        with ((k0, v0) :: (rest ++ [(key, value)]))%list by reflexivity.
      apply mapDelete_head.
      pose proof (lastN_keys_nodup n prior Hprior) as Hnd. rewrite Hlast in Hnd.
      simpl in Hnd. inversion Hnd; subst.
      rewrite map_app. simpl. intros Hin. apply in_app_or in Hin.
      destruct Hin as [Hin|[Hin|[]]]; [tauto|].
      subst k0. apply Habsent. apply in_map_iff. exists (key, v0). split; auto.
      apply (lastN_incl _ n). rewrite Hlast. left. reflexivity.
  - rewrite (lastN_all _ n prior) by lia.
    rewrite (lastN_all _ n (prior ++ [(key, value)])) by (rewrite length_app; simpl; lia).
    destruct (Z.leb_spec (Z.of_nat (List.length prior + 1)) (MAX_CACHE_ENTRIES cfg)); [reflexivity|lia].
Qed.

Lemma runOps_lastN : forall cfg ops (prior : Cache),
  0 <= MAX_CACHE_ENTRIES cfg ->
  NoDup (map fst (prior ++ putsOf ops)) ->
  Forall (fun kv => fst kv <> "") (prior ++ putsOf ops) ->
  runOps cfg ops (lastN (Z.to_nat (MAX_CACHE_ENTRIES cfg)) prior)
    = lastN (Z.to_nat (MAX_CACHE_ENTRIES cfg)) (prior ++ putsOf ops).
Proof.
  intros cfg ops. induction ops as [|[key|key value] rest IH]; intros prior Hcap Hnodup Hkeys; simpl in *.
  - rewrite app_nil_r. reflexivity.
  - apply IH; assumption.
  - replace (prior ++ (key, value) :: putsOf rest)%list
      with ((prior ++ [(key, value)]) ++ putsOf rest)%list in *
      by (rewrite <- app_assoc; reflexivity).
    rewrite writeCache_lastN; auto.
    + rewrite map_app in Hnodup. apply NoDup_app_remove_r in Hnodup.
      rewrite <- map_app in Hnodup || idtac. exact Hnodup.
    + apply Forall_app in Hkeys. tauto.
Qed.

End CacheFacts.

Lemma runOps_bound : forall cfg ops (cache : Cache),
  0 <= MAX_CACHE_ENTRIES cfg ->
  mapSize cache <= MAX_CACHE_ENTRIES cfg ->
  Forall (fun kv => fst kv <> "") cache ->
  Forall (fun kv => fst kv <> "") (putsOf ops) ->
  mapSize (runOps cfg ops cache) <= MAX_CACHE_ENTRIES cfg.
Proof.
  intros cfg ops. induction ops as [|[key|key value] rest IH];
    intros cache Hcap Hsize Hkeys Hputs; simpl in *.
  - exact Hsize.
  - apply IH; assumption.
  - inversion Hputs as [|? ? Hkey Hrest]; subst. simpl in Hkey.
    destruct (writeCache_bound cfg key value cache Hcap Hsize Hkey Hkeys).
    apply IH; assumption.
Qed.

Lemma join_colon_nonempty : forall first second rest,
  Js.join ":" (first :: second :: rest) <> "".
Proof. intros [|c first] second rest; simpl; discriminate. Qed.

Lemma cacheKey_nonempty : forall req, cacheKey req <> "".
Proof. intros req. unfold cacheKey, buildCacheKey. apply join_colon_nonempty. Qed.

(** C5. With a capacity that is not negative: (1) a put into a cache within
    the capacity leaves it within the capacity, and so does any sequence of
    gets and puts from the empty cache; the keys the handler uses are never
    empty; (2) putting a new key into a full cache removes exactly the entry
    at the head of the map and keeps every other entry, in order, before
    the new one; (3) after any sequence of gets and puts of distinct keys
    from the empty cache, the cache holds exactly the most recent puts, as
    many as the capacity, in the order they were put: the gets change
    nothing, so what is evicted is always the earliest insertion; (4) a
    request answered from memory leaves the cache and the world as they
    were. *)
Theorem cache_bounded_and_evicts_oldest_first :
  forall cfg : Config,
    0 <= MAX_CACHE_ENTRIES cfg ->
    (forall (cache : Cache) key value,
        mapSize cache <= MAX_CACHE_ENTRIES cfg ->
        key <> "" ->
        Forall (fun kv => fst kv <> "") cache ->
        mapSize (writeCache cfg key value cache) <= MAX_CACHE_ENTRIES cfg)
    /\ (forall ops,
          Forall (fun kv => fst kv <> "") (putsOf ops) ->
          mapSize (runOps cfg ops []) <= MAX_CACHE_ENTRIES cfg)
    /\ (forall req, cacheKey req <> "")
    /\ (forall oldest (rest : Cache) key value,
          NoDup (map fst (oldest :: rest)) ->
          ~ In key (map fst (oldest :: rest)) ->
          fst oldest <> "" ->
          mapSize (oldest :: rest) = MAX_CACHE_ENTRIES cfg ->
          writeCache cfg key value (oldest :: rest) = (rest ++ [(key, value)])%list)
    /\ (forall ops,
          NoDup (map fst (putsOf ops)) ->
          Forall (fun kv => fst kv <> "") (putsOf ops) ->
          runOps cfg ops []
            = lastN (Z.to_nat (MAX_CACHE_ENTRIES cfg)) (putsOf ops))
    /\ (forall (W : Type) (env : Env W) (req : Request) (s : State W) clip,
          bypassCache req = false ->
          mapGet (cacheKey req) (adClipCache s) = Some clip ->
          serve cfg env req s = (Ok200 clip true, s, [])).
Proof.
  intros cfg Hcap. split; [|split; [|split; [|split; [|split]]]].
  - intros cache key value Hsize Hkey Hkeys.
    apply (writeCache_bound cfg key value cache Hcap Hsize Hkey Hkeys).
  - intros ops Hputs. apply runOps_bound; auto; unfold mapSize; simpl; lia.
  - apply cacheKey_nonempty.
  - intros [k0 v0] rest key value Hnodup Habsent Hk0 Hfull.
    unfold writeCache.
    rewrite mapSet_absent by (apply mapGet_none_iff; exact Habsent).
    unfold mapSize in *. rewrite length_app. cbn [List.length] in *.
    destruct (Z.leb_spec (Z.of_nat (S (List.length rest) + 1)) (MAX_CACHE_ENTRIES cfg)); [lia|].
    cbn [app firstKey fst] in *.
    apply String.eqb_neq in Hk0. rewrite Hk0.
    apply mapDelete_head.
    simpl in Hnodup. inversion Hnodup; subst.
    rewrite map_app. simpl. intros Hin. apply in_app_or in Hin.
    destruct Hin as [Hin|[Hin|[]]]; [tauto|].
    apply Habsent. simpl. left. symmetry. exact Hin.
  - intros ops Hnodup Hkeys.
    apply (runOps_lastN cfg ops [] Hcap Hnodup Hkeys).
  - intros W env req s clip Hbypass Hget.
    unfold serve, lookupCaches. rewrite Hbypass, Hget. reflexivity.
Qed.

Lemma cache_bounded_and_evicts_oldest_first_witness :
  mapSize (writeCache Sim.smallCache "b" (Sim.clip "2") [("a", Sim.clip "1")]) <= 2
  /\ mapSize (runOps Sim.smallCache
                [OpPut "a" (Sim.clip "1"); OpPut "a" (Sim.clip "2");
                 OpPut "b" (Sim.clip "3"); OpPut "c" (Sim.clip "4")] []) <= 2
  /\ writeCache Sim.smallCache "c" (Sim.clip "3")
       [("a", Sim.clip "1"); ("b", Sim.clip "2")]
     = [("b", Sim.clip "2"); ("c", Sim.clip "3")]
  /\ runOps Sim.smallCache
       [OpPut "a" (Sim.clip "1"); OpGet "a"; OpPut "b" (Sim.clip "2"); OpGet "a";
        OpPut "c" (Sim.clip "3")] []
     = [("b", Sim.clip "2"); ("c", Sim.clip "3")]
  /\ serve Sim.smallCache (Sim.env Sim.allGood) (Sim.requestAt 12)
       (mkState [(cacheKey (Sim.requestAt 12), Sim.clip "1"); ("b", Sim.clip "2")] 5%nat)
     = (Ok200 (Sim.clip "1") true,
        mkState [(cacheKey (Sim.requestAt 12), Sim.clip "1"); ("b", Sim.clip "2")] 5%nat,
        []).
Proof.
  assert (Hcap : 0 <= MAX_CACHE_ENTRIES Sim.smallCache) by (simpl; lia).
  destruct (cache_bounded_and_evicts_oldest_first Sim.smallCache Hcap)
    as (Hput & Hrun & _ & Hevict & Hfifo & Hread).
  split; [|split; [|split; [|split]]].
  - apply (Hput [("a", Sim.clip "1")] "b" (Sim.clip "2")).
    + vm_compute. discriminate.
    + discriminate.
    + repeat constructor; simpl; discriminate.
  - apply (Hrun [OpPut "a" (Sim.clip "1"); OpPut "a" (Sim.clip "2");
                 OpPut "b" (Sim.clip "3"); OpPut "c" (Sim.clip "4")]).
    simpl. repeat constructor; simpl; discriminate.
  - apply (Hevict ("a", Sim.clip "1") [("b", Sim.clip "2")] "c" (Sim.clip "3")).
    + simpl. repeat constructor; simpl; intuition discriminate.
    + simpl. intuition discriminate.
    + simpl. discriminate.
    + reflexivity.
  - refine (eq_trans
              (Hfifo [OpPut "a" (Sim.clip "1"); OpGet "a"; OpPut "b" (Sim.clip "2");
                      OpGet "a"; OpPut "c" (Sim.clip "3")] _ _) _).
    + simpl. repeat constructor; simpl; intuition discriminate.
    + simpl. repeat constructor; simpl; discriminate.
    + reflexivity.
  - apply (Hread Sim.World (Sim.env Sim.allGood) (Sim.requestAt 12)
             (mkState [(cacheKey (Sim.requestAt 12), Sim.clip "1"); ("b", Sim.clip "2")]
                5%nat) (Sim.clip "1")).
    + reflexivity.
    + vm_compute. reflexivity.
Defined.

(** ** Reading the request *)

Section RequestFacts.

Lemma lookup_assign_other : forall k k' v props,
  String.eqb k' k = false -> Js.lookup k' (Js.assign k v props) = Js.lookup k' props.
Proof.
  intros k k' v props Hneq. induction props as [|[k0 v0] rest IH]; simpl.
  - rewrite Hneq. reflexivity.
  - destruct (String.eqb k k0) eqn:E; simpl.
    + apply String.eqb_eq in E. subst k0. rewrite Hneq. reflexivity.
    + rewrite IH. reflexivity.
Qed.

Lemma get_set_other : forall body k k' v,
  String.eqb k' k = false -> Js.get (Js.set body k v) k' = Js.get body k'.
Proof.
  intros [] k k' v Hneq; simpl; try reflexivity.
  rewrite lookup_assign_other by assumption. reflexivity.
Qed.

Lemma getOpt_set_other : forall body k k' v,
  String.eqb k' k = false -> Js.getOpt (Js.set body k v) k' = Js.getOpt body k'.
Proof. intros. unfold Js.getOpt. rewrite get_set_other by assumption. reflexivity. Qed.

(** The handler never reads [durationSeconds]. *)
Lemma readRequest_ignores_duration : forall cfg body other,
  readRequest cfg (Js.set body "durationSeconds" other) = readRequest cfg body.
Proof.
  intros cfg body other. unfold readRequest.
  rewrite get_set_other by reflexivity.
  repeat rewrite getOpt_set_other by reflexivity.
  reflexivity.
Qed.

Lemma readRequest_duration : forall cfg body req,
  readRequest cfg body = inr req -> durationSeconds req = AD_INSERT_DURATION_SECONDS.
Proof.
  intros cfg body req. unfold readRequest.
  destruct (Js.get body "product") as [raw|]; [|discriminate].
  destruct (validateProduct raw); [|discriminate].
  destruct (String.eqb _ ""); [discriminate|].
  intros H. inversion H. reflexivity.
Qed.

Lemma isNonBlankString_false : forall v, blank v -> isNonBlankString v = false.
Proof.
  intros [] H; simpl in *; try reflexivity. rewrite H. reflexivity.
Qed.

Lemma validateProduct_malformed : forall p, malformedProduct p -> validateProduct p = None.
Proof.
  intros p [Hfalsy | [(key & Hin & Hblank) | Hbenefits]]; unfold validateProduct.
  - rewrite Hfalsy. reflexivity.
  - destruct (negb (Js.truthy p)); [reflexivity|].
    assert (Hall : forallb (fun key => isNonBlankString (Js.getOpt p key)) requiredStrings = false).
    { destruct (forallb _ requiredStrings) eqn:E; [|reflexivity].
      rewrite forallb_forall in E. specialize (E key Hin).
      rewrite (isNonBlankString_false _ Hblank) in E. discriminate. }
    rewrite Hall. reflexivity.
  - destruct (negb (Js.truthy p)); [reflexivity|].
    destruct (negb (forallb _ requiredStrings)); [reflexivity|].
    assert (Hshape : isArrayOfLength 3 (Js.getOpt p "benefits") = false).
    { destruct (Js.getOpt p "benefits") as [| | | | |items|] eqn:E; simpl; try reflexivity.
      apply Nat.eqb_neq. apply Hbenefits. reflexivity. }
    rewrite Hshape. reflexivity.
Qed.

End RequestFacts.

(** A request whose three benefit texts are empty is not refused: the
    handler reads it, extracts frames, generates and answers 200. *)
Lemma empty_benefits_are_accepted :
  Js.getOpt Sim.emptyBenefits "benefits" = Js.Arr [Js.Str ""; Js.Str ""; Js.Str ""]
  /\ exists clip s log,
       POST Sim.config (Sim.env Sim.allGood)
         (Some (Sim.bodyWith Sim.emptyBenefits 12 [])) Sim.start
       = (Ok200 clip false, s, log)
       /\ s <> Sim.start
       /\ log <> [].
Proof.
  split; [reflexivity|].
  eexists. eexists. eexists. split; [vm_compute; reflexivity|].
  split; discriminate.
Qed.

(** C9, amended. A body that is not JSON is answered 400.  A body other than
    [null] whose product is absent, has one of the eight required texts
    ([id], [brandName], [productName], [tagline], [visualDescription],
    [actionScript], [colorFrom], [colorTo]) missing or blank, or has a
    [benefits] that is not an array of three entries, and a body whose
    [videoId] is not a string or keeps no character of [A-Za-z0-9_-], is
    answered 400.  In each case the cache and the world are left untouched
    and nothing is logged: no frame is extracted, no generation is started,
    no cache is written. *)
Theorem malformed_request_is_rejected_before_any_call :
  forall (W : Type) (cfg : Config) (env : Env W) (s : State W),
    POST cfg env None s = (ErrorResponse 400 "Invalid JSON payload." None, s, [])
    /\ (forall body rawProduct,
          Js.get body "product" = Some rawProduct ->
          malformedProduct rawProduct
          \/ sanitizeVideoId (Js.getOpt body "videoId") = "" ->
          exists text, POST cfg env (Some body) s = (ErrorResponse 400 text None, s, [])).
Proof.
  intros W cfg env s. split; [reflexivity|].
  intros body rawProduct Hget Hbad. unfold POST, readRequest. rewrite Hget.
  destruct (validateProduct rawProduct) as [product|] eqn:Hvalid.
  - destruct Hbad as [Hbad|Hid].
    + rewrite (validateProduct_malformed _ Hbad) in Hvalid. discriminate.
    + rewrite Hid. simpl. eexists. reflexivity.
  - eexists. reflexivity.
Qed.

Lemma malformed_request_is_rejected_before_any_call_witness :
  exists text,
    POST Sim.config (Sim.env Sim.allGood)
      (Some (Sim.bodyWith (Sim.productWith (Js.Arr [Js.Str "only"; Js.Str "two"])) 12 []))
      Sim.start
    = (ErrorResponse 400 text None, Sim.start, []).
Proof.
  refine (proj2 (malformed_request_is_rejected_before_any_call
                   Sim.World Sim.config (Sim.env Sim.allGood) Sim.start)
            _ (Sim.productWith (Js.Arr [Js.Str "only"; Js.Str "two"])) _ _).
  - reflexivity.
  - left. right. right. intros items H. vm_compute in H. inversion H. simpl. lia.
Defined.

(** Two requests that differ only in [durationSeconds], 8 and 15: the second
    is not given 15 seconds, and both have the same cache key. *)
Lemma duration_field_is_not_used :
  exists req8 req15,
    readRequest Sim.config (Sim.body 12 [("durationSeconds", Js.Num 8)]) = inr req8
    /\ readRequest Sim.config (Sim.body 12 [("durationSeconds", Js.Num 15)]) = inr req15
    /\ durationSeconds req15 <> 15
    /\ generatedDurationSeconds Sim.config req15 = generatedDurationSeconds Sim.config req8
    /\ cacheKey req15 = cacheKey req8.
Proof.
  eexists. eexists. split; [reflexivity|]. split; [reflexivity|].
  split; [vm_compute; discriminate|]. split; reflexivity.
Qed.

(** C6, amended. For every request the handler accepts, the target duration
    is the constant AD_INSERT_DURATION_SECONDS, 8 seconds, whatever the
    body's [durationSeconds] says: it is the duration in the cache key, in
    the prompt and in the generation call, no split and no padding is ever
    needed, and changing [durationSeconds] in the body changes neither the
    request the handler reads (so not its cache key) nor anything the
    handler does. *)
Theorem target_duration_is_the_fixed_constant :
  forall (cfg : Config) (body : Js.Value) (req : Request),
    readRequest cfg body = inr req ->
    durationSeconds req = 8
    /\ cacheKey req
       = Js.join ":" [videoId req; Js.ofZ (Qfloor (timestampSeconds req * 1000)); "8";
                      productId (product req); style req; aspectRatio req;
                      resolution req; seedToken req]
    /\ requiresSplit cfg req = false
    /\ generatedDurationSeconds cfg req = 8
    /\ holdExtensionSeconds cfg req = 0
    /\ (forall cand, pDurationSeconds (finalPrompt cfg req cand) = 8)
    /\ (forall other,
          readRequest cfg (Js.set body "durationSeconds" other) = inr req)
    /\ (forall (W : Type) (env : Env W) (s : State W) other,
          POST cfg env (Some (Js.set body "durationSeconds" other)) s
          = POST cfg env (Some body) s).
Proof.
  intros cfg body req Hread.
  pose proof (readRequest_duration cfg body req Hread) as Hd.
  unfold AD_INSERT_DURATION_SECONDS in Hd.
  assert (Hsplit : requiresSplit cfg req = false).
  { unfold requiresSplit. rewrite Hd. unfold VEO_MAX_IMAGE_TO_VIDEO_SECONDS.
    simpl. apply andb_false_r. }
  assert (Hgen : generatedDurationSeconds cfg req = 8).
  { unfold generatedDurationSeconds. rewrite Hsplit, Hd. reflexivity. }
  repeat split.
  - exact Hd.
  - unfold cacheKey, buildCacheKey. simpl. rewrite Hd. reflexivity.
  - exact Hsplit.
  - exact Hgen.
  - unfold holdExtensionSeconds. rewrite Hsplit, Hgen, Hd. reflexivity.
  - intros cand. unfold finalPrompt. simpl. rewrite Hsplit. exact Hgen.
  - intros other. rewrite readRequest_ignores_duration. exact Hread.
  - intros W env s other. unfold POST. rewrite readRequest_ignores_duration. reflexivity.
Qed.

Lemma target_duration_is_the_fixed_constant_witness :
  POST Sim.config (Sim.env Sim.allGood)
    (Some (Js.set (Sim.body 12 [("durationSeconds", Js.Num 8)]) "durationSeconds" (Js.Num 15)))
    Sim.start
  = POST Sim.config (Sim.env Sim.allGood)
      (Some (Sim.body 12 [("durationSeconds", Js.Num 8)])) Sim.start.
Proof.
  eapply (fun req Hread =>
            proj2 (proj2 (proj2 (proj2 (proj2 (proj2 (proj2
              (target_duration_is_the_fixed_constant Sim.config
                 (Sim.body 12 [("durationSeconds", Js.Num 8)]) req Hread)))))))
              Sim.World (Sim.env Sim.allGood) Sim.start (Js.Num 15)).
  vm_compute. reflexivity.
Defined.

(** ** The retry loops *)

Section LoopFacts.
Context {W : Type} (cfg : Config) (env : Env W) (req : Request) (seedBase : Z).

Lemma hasRetryProfile_eq : forall i n, Nat.ltb i (n - 1) = Nat.ltb (S i) n.
Proof.
  intros i n. destruct (Nat.ltb_spec i (n - 1)); destruct (Nat.ltb_spec (S i) n);
    auto; lia.
Qed.

(** One turn of the innermost loop, case by case. *)
Lemma profileLoop_step :
  forall cand modelIndex model profileIndex profile rest lastError (s : State W)
         exit lastError' s' events,
    profileLoop cfg env req seedBase cand modelIndex model profileIndex
      (profile :: rest) lastError s = (exit, lastError', s', events) ->
    let attempt :=
      mkAttempt (candidateIndex cand) modelIndex profileIndex
        (candidateTimestampSeconds cand) model profile (frames cand) in
    (exists clip w1 writes,
        generate cfg env req seedBase cand model profile (world s) = (inr clip, w1)
        /\ exit = Returned (Ok200 clip false)
        /\ lastError' = lastError
        /\ events = EvAttempt (attempt (Generated clip)) :: writes
        /\ (bypassCache req = true ->
            writes = [] /\ s' = mkState (adClipCache s) w1)
        /\ (bypassCache req = false ->
            writes = EvWriteCache (cacheKey req) clip
                       :: snd (writePersistentCache cfg env (cacheKey req) clip w1)
            /\ s' = mkState (writeCache cfg (cacheKey req) clip (adClipCache s))
                      (fst (writePersistentCache cfg env (cacheKey req) clip w1))))
    \/ (exists error w1 parsed,
          generate cfg env req seedBase cand model profile (world s) = (inl error, w1)
          /\ parsed = parseStructuredApiError (jsonParse env) error
          /\ match classify parsed with
             | PermissionDenied | QuotaExceeded =>
                 exit = Returned (responseAfterFailure parsed)
                 /\ lastError' = message parsed
                 /\ s' = mkState (adClipCache s) w1
                 /\ events = [EvAttempt (attempt (Failed parsed))]
             | RetryableFrameIssue =>
                 if Nat.ltb (S profileIndex) (List.length (getSafetyProfiles cfg))
                 then
                   exists more,
                     profileLoop cfg env req seedBase cand modelIndex model
                       (S profileIndex) rest (message parsed)
                       (mkState (adClipCache s) w1) = (exit, lastError', s', more)
                     /\ events = EvAttempt (attempt (Failed parsed)) :: more
                 else
                   exit = BlockedFrame
                   /\ lastError' = message parsed
                   /\ s' = mkState (adClipCache s) w1
                   /\ events = [EvAttempt (attempt (Failed parsed))]
             | OtherError =>
                 exit = Finished
                 /\ lastError' = message parsed
                 /\ s' = mkState (adClipCache s) w1
                 /\ events = [EvAttempt (attempt (Failed parsed))]
             end).
Proof.
  intros cand mi model pi profile rest le s exit le' s' events Hrun attempt.
  cbn [profileLoop] in Hrun. cbv zeta in Hrun.
  destruct (generate cfg env req seedBase cand model profile (world s))
    as [[error|clip] w1] eqn:Hgen.
  - right. exists error, w1, (parseStructuredApiError (jsonParse env) error).
    split; [reflexivity|]. split; [reflexivity|].
    set (parsed := parseStructuredApiError (jsonParse env) error) in *.
    unfold classify, responseAfterFailure, classify.
    destruct (isPermissionDenied parsed) eqn:Hperm.
    { inversion Hrun; subst. auto. }
    destruct (isQuotaExceeded parsed) eqn:Hquota.
    { inversion Hrun; subst. auto. }
    unfold safetyProfiles in Hrun. rewrite hasRetryProfile_eq in Hrun.
    destruct (isBlockedInputImageError (message parsed)
              || isMissingSampleError (message parsed)) eqn:Hretry.
    + destruct (Nat.ltb (S pi) (List.length (getSafetyProfiles cfg))) eqn:Hmore.
      * cbn [andb] in Hrun.
        destruct (profileLoop cfg env req seedBase cand mi model (S pi) rest
                    (message parsed) (mkState (adClipCache s) w1))
          as [[[exit0 le0] s0] more] eqn:Hrec.
        inversion Hrun; subst. exists more. auto.
      * cbn [andb] in Hrun. inversion Hrun; subst. auto.
    + cbn [andb] in Hrun. inversion Hrun; subst. auto.
  - left. destruct (bypassCache req) eqn:Hbypass.
    + inversion Hrun; subst. exists clip, w1, [].
      repeat split; auto; intros; congruence.
    + destruct (writePersistentCache cfg env (cacheKey req) clip w1)
        as [w2 persisted] eqn:Hpersist.
      inversion Hrun; subst.
      exists clip, w1, (EvWriteCache (cacheKey req) clip :: persisted).
      rewrite Hpersist. repeat split; auto; intros; congruence.
Qed.

Lemma skipn_cons : forall (A : Type) i (l : list A) x rest,
  skipn i l = x :: rest ->
  nth_error l i = Some x /\ skipn (S i) l = rest
  /\ List.length l = (i + S (List.length rest))%nat.
Proof.
  intros A i. induction i as [|i IH]; intros l x rest H.
  - simpl in H. subst l. simpl. auto.
  - destruct l as [|y l]; simpl in H; [discriminate|].
    destruct (IH l x rest H) as (H1 & H2 & H3). simpl. rewrite H3. auto.
Qed.

Lemma policy_cache_events : forall events,
  Forall (fun e => eventCandidate e = None) events -> policy cfg events.
Proof.
  induction events as [|e rest IH]; intros H; simpl; [exact I|].
  inversion H; subst. destruct e; simpl in *; try discriminate; auto.
Qed.

Lemma policy_app_cache_events : forall events k,
  Forall (fun e => eventCandidate e = None) events ->
  policy cfg k -> policy cfg (events ++ k).
Proof.
  induction events as [|e rest IH]; intros k H Hk; simpl; [exact Hk|].
  inversion H; subst. destruct e; simpl in *; try discriminate; auto.
Qed.

Lemma writePersistentCache_events : forall key clip (w : W),
  Forall (fun e => eventCandidate e = None)
    (snd (writePersistentCache cfg env key clip w)).
Proof.
  intros key clip w. unfold writePersistentCache.
  destruct (CACHE_PERSIST_ENABLED cfg); simpl; repeat constructor.
Qed.

(** The first event of a turn of the innermost loop is its attempt. *)
Lemma profileLoop_head :
  forall cand modelIndex model profileIndex profile rest lastError (s : State W)
         exit lastError' s' events,
    profileLoop cfg env req seedBase cand modelIndex model profileIndex
      (profile :: rest) lastError s = (exit, lastError', s', events) ->
    exists result tail,
      events = EvAttempt (mkAttempt (candidateIndex cand) modelIndex profileIndex
                            (candidateTimestampSeconds cand) model profile
                            (frames cand) result) :: tail.
Proof.
  intros cand mi model pi profile rest le s exit le' s' events Hrun.
  destruct (profileLoop_step _ _ _ _ _ _ _ _ _ _ _ _ Hrun)
    as [(clip & w1 & writes & _ & _ & _ & -> & _)
       |(error & w1 & parsed & _ & _ & Hcase)].
  - eauto.
  - destruct (classify parsed).
    + destruct Hcase as (_ & _ & _ & ->). eauto.
    + destruct Hcase as (_ & _ & _ & ->). eauto.
    + destruct (Nat.ltb _ _).
      * destruct Hcase as (more & _ & ->). eauto.
      * destruct Hcase as (_ & _ & _ & ->). eauto.
    + destruct Hcase as (_ & _ & _ & ->). eauto.
Qed.

(** The innermost loop keeps the policy, whatever follows it in the log,
    provided what follows suits the way the loop was left. *)
Lemma profileLoop_policy :
  forall cand modelIndex model remaining profileIndex lastError (s : State W)
         exit lastError' s' events,
    profileLoop cfg env req seedBase cand modelIndex model profileIndex
      remaining lastError s = (exit, lastError', s', events) ->
    skipn profileIndex (getSafetyProfiles cfg) = remaining ->
    forall k,
      policy cfg k ->
      (forall r, exit = Returned r -> k = []) ->
      (exit = BlockedFrame ->
       forall i p r,
         nextCandidateStarts
           (mkAttempt (candidateIndex cand) modelIndex i
              (candidateTimestampSeconds cand) model p (frames cand) r) k) ->
      (exit = Finished ->
       forall i p r,
         nextModelStarts cfg
           (mkAttempt (candidateIndex cand) modelIndex i
              (candidateTimestampSeconds cand) model p (frames cand) r) k) ->
      policy cfg (events ++ k).
Proof.
  intros cand mi model remaining.
  induction remaining as [|profile rest IH];
    intros pi le s exit le' s' events Hrun Hskip k Hk Hret Hblocked Hfinished.
  - simpl in Hrun. inversion Hrun; subst. exact Hk.
  - destruct (skipn_cons _ _ _ _ _ Hskip) as (Hnth & Hskip' & Hlen).
    destruct (profileLoop_step _ _ _ _ _ _ _ _ _ _ _ _ Hrun)
      as [(clip & w1 & writes & _ & -> & _ & -> & Hbypass & Hwrite)
         |(error & w1 & parsed & _ & _ & Hcase)].
    + rewrite (Hret _ eq_refl). rewrite app_nil_r.
      assert (Hwrites : Forall (fun e => eventCandidate e = None) writes).
      { destruct (bypassCache req).
        - destruct (Hbypass eq_refl) as [-> _]. constructor.
        - destruct (Hwrite eq_refl) as [-> _]. constructor; [reflexivity|].
          apply writePersistentCache_events. }
      simpl. split; [exact Hwrites | apply policy_cache_events; exact Hwrites].
    + destruct (classify parsed) eqn:Hclass.
      * destruct Hcase as (-> & _ & _ & ->). rewrite (Hret _ eq_refl).
        simpl. unfold follows. simpl. rewrite Hclass. auto.
      * destruct Hcase as (-> & _ & _ & ->). rewrite (Hret _ eq_refl).
        simpl. unfold follows. simpl. rewrite Hclass. auto.
      * destruct (Nat.ltb (S pi) (List.length (getSafetyProfiles cfg))) eqn:Hmore.
        -- destruct Hcase as (more & Hrec & ->).
           simpl. split.
           ++ unfold follows. simpl. rewrite Hclass, Hmore.
              apply Nat.ltb_lt in Hmore.
              destruct rest as [|next rest'].
              { simpl in Hlen. lia. }
              destruct (skipn_cons _ _ _ _ _ Hskip') as (Hnext & _ & _).
              destruct (profileLoop_head _ _ _ _ _ _ _ _ _ _ _ _ Hrec)
                as (result & tail & ->).
              exists next, result, (tail ++ k)%list. split; [exact Hnext | reflexivity].
           ++ eapply IH; eauto.
        -- destruct Hcase as (-> & _ & _ & ->).
           simpl. split; [|exact Hk].
           unfold follows. simpl. rewrite Hclass, Hmore. apply Hblocked. reflexivity.
      * destruct Hcase as (-> & _ & _ & ->).
        simpl. split; [|exact Hk].
        unfold follows. simpl. rewrite Hclass. apply Hfinished. reflexivity.
Qed.

(** Every event of the innermost loop belongs to its candidate. *)
Lemma profileLoop_candidate :
  forall cand modelIndex model remaining profileIndex lastError (s : State W)
         exit lastError' s' events,
    profileLoop cfg env req seedBase cand modelIndex model profileIndex
      remaining lastError s = (exit, lastError', s', events) ->
    Forall (fromCandidate (candidateIndex cand)) events.
Proof.
  intros cand mi model remaining.
  induction remaining as [|profile rest IH];
    intros pi le s exit le' s' events Hrun.
  - simpl in Hrun. inversion Hrun; subst. constructor.
  - assert (Hattempt : forall r,
              fromCandidate (candidateIndex cand)
                (EvAttempt (mkAttempt (candidateIndex cand) mi pi
                   (candidateTimestampSeconds cand) model profile (frames cand) r))).
    { intros r. unfold fromCandidate. simpl. lia. }
    destruct (profileLoop_step _ _ _ _ _ _ _ _ _ _ _ _ Hrun)
      as [(clip & w1 & writes & _ & -> & _ & -> & Hbypass & Hwrite)
         |(error & w1 & parsed & _ & _ & Hcase)].
    + constructor; [apply Hattempt|].
      assert (Hwrites : Forall (fun e => eventCandidate e = None) writes).
      { destruct (bypassCache req).
        - destruct (Hbypass eq_refl) as [-> _]. constructor.
        - destruct (Hwrite eq_refl) as [-> _]. constructor; [reflexivity|].
          apply writePersistentCache_events. }
      eapply Forall_impl; [|exact Hwrites].
      intros e He. unfold fromCandidate. rewrite He. exact I.
    + destruct (classify parsed).
      * destruct Hcase as (_ & _ & _ & ->). constructor; [apply Hattempt | constructor].
      * destruct Hcase as (_ & _ & _ & ->). constructor; [apply Hattempt | constructor].
      * destruct (Nat.ltb _ _).
        -- destruct Hcase as (more & Hrec & ->). constructor; [apply Hattempt|].
           eapply IH; eauto.
        -- destruct Hcase as (_ & _ & _ & ->). constructor; [apply Hattempt | constructor].
      * destruct Hcase as (_ & _ & _ & ->). constructor; [apply Hattempt | constructor].
Qed.

(** One turn of the model loop. *)
Lemma modelLoop_step :
  forall cand modelIndex model rest lastError (s : State W) exit lastError' s' events,
    modelLoop cfg env req seedBase cand modelIndex (model :: rest) lastError s
      = (exit, lastError', s', events) ->
    exists exit1 lastError1 s1 events1,
      profileLoop cfg env req seedBase cand modelIndex model 0
        (getSafetyProfiles cfg) lastError s = (exit1, lastError1, s1, events1)
      /\ match exit1 with
         | Finished =>
             exists more,
               modelLoop cfg env req seedBase cand (S modelIndex) rest lastError1 s1
                 = (exit, lastError', s', more)
               /\ events = (events1 ++ more)%list
         | _ => exit = exit1 /\ lastError' = lastError1 /\ s' = s1 /\ events = events1
         end.
Proof.
  intros cand mi model rest le s exit le' s' events Hrun.
  cbn [modelLoop] in Hrun. unfold safetyProfiles in Hrun.
  destruct (profileLoop cfg env req seedBase cand mi model 0 (getSafetyProfiles cfg) le s)
    as [[[exit1 le1] s1] events1] eqn:Hprofiles.
  exists exit1, le1, s1, events1. split; [reflexivity|].
  destruct exit1.
  - inversion Hrun; subst. auto.
  - inversion Hrun; subst. auto.
  - destruct (modelLoop cfg env req seedBase cand (S mi) rest le1 s1)
      as [[[exit2 le2] s2] more] eqn:Hrec.
    inversion Hrun; subst. exists more. auto.
Qed.

Lemma modelLoop_head :
  forall cand modelIndex model rest profile profiles lastError (s : State W)
         exit lastError' s' events,
    modelLoop cfg env req seedBase cand modelIndex (model :: rest) lastError s
      = (exit, lastError', s', events) ->
    getSafetyProfiles cfg = profile :: profiles ->
    exists result tail,
      events = EvAttempt (mkAttempt (candidateIndex cand) modelIndex 0
                            (candidateTimestampSeconds cand) model profile
                            (frames cand) result) :: tail.
Proof.
  intros cand mi model rest profile profiles le s exit le' s' events Hrun Hprofiles.
  destruct (modelLoop_step _ _ _ _ _ _ _ _ _ _ Hrun)
    as (exit1 & le1 & s1 & events1 & Hinner & Hcase).
  rewrite Hprofiles in Hinner.
  destruct (profileLoop_head _ _ _ _ _ _ _ _ _ _ _ _ Hinner) as (result & tail & ->).
  destruct exit1.
  - destruct Hcase as (_ & _ & _ & ->). eauto.
  - destruct Hcase as (_ & _ & _ & ->). eauto.
  - destruct Hcase as (more & _ & ->). simpl. eauto.
Qed.

Lemma modelLoop_policy :
  forall cand remaining modelIndex lastError (s : State W) exit lastError' s' events,
    modelLoop cfg env req seedBase cand modelIndex remaining lastError s
      = (exit, lastError', s', events) ->
    skipn modelIndex (MODEL_CANDIDATES cfg) = remaining ->
    forall k,
      policy cfg k ->
      (forall r, exit = Returned r -> k = []) ->
      (exit = BlockedFrame ->
       forall i j m p r,
         nextCandidateStarts
           (mkAttempt (candidateIndex cand) i j (candidateTimestampSeconds cand)
              m p (frames cand) r) k) ->
      (exit = Finished -> k = []) ->
      policy cfg (events ++ k).
Proof.
  intros cand remaining.
  induction remaining as [|model rest IH];
    intros mi le s exit le' s' events Hrun Hskip k Hk Hret Hblocked Hfinished.
  - simpl in Hrun. inversion Hrun; subst. exact Hk.
  - destruct (skipn_cons _ _ _ _ _ Hskip) as (Hnth & Hskip' & Hlen).
    destruct (modelLoop_step _ _ _ _ _ _ _ _ _ _ Hrun)
      as (exit1 & le1 & s1 & events1 & Hinner & Hcase).
    destruct exit1 as [r| |].
    + destruct Hcase as (-> & _ & _ & ->).
      eapply profileLoop_policy; eauto; try discriminate.
    + destruct Hcase as (-> & _ & _ & ->).
      eapply profileLoop_policy; eauto; try discriminate;
        intros _ i p r; apply Hblocked; reflexivity.
    + destruct Hcase as (more & Hrec & ->). rewrite <- app_assoc.
      eapply profileLoop_policy;
        [exact Hinner | reflexivity | eapply IH; eauto | discriminate | discriminate |].
      * intros _ i p r. unfold nextModelStarts. cbn [aModelIndex].
        destruct (Nat.ltb (S mi) (List.length (MODEL_CANDIDATES cfg))) eqn:Hmore.
        -- apply Nat.ltb_lt in Hmore.
           destruct rest as [|next rest']; [simpl in Hlen; lia|].
           destruct (skipn_cons _ _ _ _ _ Hskip') as (Hnext & _ & _).
           destruct (getSafetyProfiles cfg) as [|first others] eqn:Hprofiles.
           { unfold getSafetyProfiles in Hprofiles.
             destruct (_ && _); discriminate. }
           destruct (modelLoop_head _ _ _ _ _ _ _ _ _ _ _ _ Hrec Hprofiles)
             as (result & tail & ->).
           exists next, first, result, (tail ++ k)%list.
           repeat split; auto.
        -- apply Nat.ltb_ge in Hmore.
           destruct rest as [|next rest']; [|simpl in Hlen; lia].
           simpl in Hrec. inversion Hrec; subst. simpl. apply Hfinished. reflexivity.
Qed.

Lemma modelLoop_candidate :
  forall cand remaining modelIndex lastError (s : State W) exit lastError' s' events,
    modelLoop cfg env req seedBase cand modelIndex remaining lastError s
      = (exit, lastError', s', events) ->
    Forall (fromCandidate (candidateIndex cand)) events.
Proof.
  intros cand remaining.
  induction remaining as [|model rest IH]; intros mi le s exit le' s' events Hrun.
  - simpl in Hrun. inversion Hrun; subst. constructor.
  - destruct (modelLoop_step _ _ _ _ _ _ _ _ _ _ Hrun)
      as (exit1 & le1 & s1 & events1 & Hinner & Hcase).
    pose proof (profileLoop_candidate _ _ _ _ _ _ _ _ _ _ _ Hinner) as H1.
    destruct exit1.
    + destruct Hcase as (_ & _ & _ & ->). exact H1.
    + destruct Hcase as (_ & _ & _ & ->). exact H1.
    + destruct Hcase as (more & Hrec & ->). apply Forall_app. split; eauto.
Qed.

(** One turn of the candidate loop. *)
Lemma candidateLoop_step :
  forall index ts rest lastError (s : State W) response lastError' s' events,
    candidateLoop cfg env req seedBase index (ts :: rest) lastError s
      = (response, lastError', s', events) ->
    exists acquired w1 provider,
      acquireFrames cfg env req ts (world s) = (acquired, w1, provider)
      /\ match acquired with
         | inl error =>
             exists more,
               candidateLoop cfg env req seedBase (S index) rest
                 ("Failed to extract framing images near "
                    ++ numberToString env ts ++ "s. " ++ toErrorMessage error)
                 (mkState (adClipCache s) w1) = (response, lastError', s', more)
               /\ events = EvExtractFrames index ts provider :: more
         | inr frames =>
             exists exit lastError1 s2 events1,
               modelLoop cfg env req seedBase (mkCandidate index ts frames) 0
                 (MODEL_CANDIDATES cfg) lastError (mkState (adClipCache s) w1)
                 = (exit, lastError1, s2, events1)
               /\ match exit with
                  | Returned r =>
                      response = Some r /\ lastError' = lastError1 /\ s' = s2
                      /\ events = EvExtractFrames index ts provider :: events1
                  | BlockedFrame =>
                      exists more,
                        candidateLoop cfg env req seedBase (S index) rest lastError1 s2
                          = (response, lastError', s', more)
                        /\ events
                           = EvExtractFrames index ts provider :: (events1 ++ more)%list
                  | Finished =>
                      response = None /\ lastError' = lastError1 /\ s' = s2
                      /\ events = EvExtractFrames index ts provider :: events1
                  end
         end.
Proof.
  intros index ts rest le s response le' s' events Hrun.
  cbn [candidateLoop] in Hrun. unfold models in Hrun.
  destruct (acquireFrames cfg env req ts (world s)) as [[acquired w1] provider] eqn:Hframes.
  exists acquired, w1, provider. split; [reflexivity|].
  destruct acquired as [error|frames].
  - destruct (candidateLoop cfg env req seedBase (S index) rest _ _)
      as [[[response0 le0] s0] more] eqn:Hrec.
    inversion Hrun; subst. exists more. auto.
  - destruct (modelLoop cfg env req seedBase (mkCandidate index ts frames) 0
                (MODEL_CANDIDATES cfg) le (mkState (adClipCache s) w1))
      as [[[exit le1] s2] events1] eqn:Hmodels.
    exists exit, le1, s2, events1. split; [reflexivity|].
    destruct exit.
    + inversion Hrun; subst. auto.
    + destruct (candidateLoop cfg env req seedBase (S index) rest le1 s2)
        as [[[response0 le0] s0] more] eqn:Hrec.
      inversion Hrun; subst. exists more. auto.
    + inversion Hrun; subst. auto.
Qed.

Lemma candidateLoop_head :
  forall index ts rest lastError (s : State W) response lastError' s' events,
    candidateLoop cfg env req seedBase index (ts :: rest) lastError s
      = (response, lastError', s', events) ->
    exists provider tail, events = EvExtractFrames index ts provider :: tail.
Proof.
  intros index ts rest le s response le' s' events Hrun.
  destruct (candidateLoop_step _ _ _ _ _ _ _ _ _ Hrun)
    as (acquired & w1 & provider & _ & Hcase).
  destruct acquired as [error|frames].
  - destruct Hcase as (more & _ & ->). eauto.
  - destruct Hcase as (exit & le1 & s2 & events1 & _ & Hcase).
    destruct exit.
    + destruct Hcase as (_ & _ & _ & ->). eauto.
    + destruct Hcase as (more & _ & ->). eauto.
    + destruct Hcase as (_ & _ & _ & ->). eauto.
Qed.

Lemma fromCandidate_weaken : forall i j e,
  (i <= j)%nat -> fromCandidate j e -> fromCandidate i e.
Proof.
  intros i j e Hle. unfold fromCandidate. destruct (eventCandidate e); [lia | auto].
Qed.

Lemma candidateLoop_candidate :
  forall remaining index lastError (s : State W) response lastError' s' events,
    candidateLoop cfg env req seedBase index remaining lastError s
      = (response, lastError', s', events) ->
    Forall (fromCandidate index) events.
Proof.
  induction remaining as [|ts rest IH]; intros index le s response le' s' events Hrun.
  - simpl in Hrun. inversion Hrun; subst. constructor.
  - assert (Hlater : forall more, Forall (fromCandidate (S index)) more ->
                                  Forall (fromCandidate index) more).
    { intros more. apply Forall_impl. intros e. apply fromCandidate_weaken. lia. }
    assert (Hhere : forall provider,
              fromCandidate index (EvExtractFrames index ts provider)).
    { intros provider. unfold fromCandidate. simpl. lia. }
    destruct (candidateLoop_step _ _ _ _ _ _ _ _ _ Hrun)
      as (acquired & w1 & provider & _ & Hcase).
    destruct acquired as [error|frames].
    + destruct Hcase as (more & Hrec & ->). constructor; [apply Hhere|].
      apply Hlater. eapply IH; eauto.
    + destruct Hcase as (exit & le1 & s2 & events1 & Hmodels & Hcase).
      pose proof (modelLoop_candidate _ _ _ _ _ _ _ _ _ Hmodels) as H1. simpl in H1.
      destruct exit.
      * destruct Hcase as (_ & _ & _ & ->). constructor; [apply Hhere | exact H1].
      * destruct Hcase as (more & Hrec & ->). constructor; [apply Hhere|].
        apply Forall_app. split; [exact H1|]. apply Hlater. eapply IH; eauto.
      * destruct Hcase as (_ & _ & _ & ->). constructor; [apply Hhere | exact H1].
Qed.

(** The three loops together keep the policy. *)
Lemma candidateLoop_policy :
  forall remaining index lastError (s : State W) response lastError' s' events,
    candidateLoop cfg env req seedBase index remaining lastError s
      = (response, lastError', s', events) ->
    policy cfg events.
Proof.
  induction remaining as [|ts rest IH]; intros index le s response le' s' events Hrun.
  - simpl in Hrun. inversion Hrun; subst. exact I.
  - destruct (candidateLoop_step _ _ _ _ _ _ _ _ _ Hrun)
      as (acquired & w1 & provider & _ & Hcase).
    destruct acquired as [error|frames].
    + destruct Hcase as (more & Hrec & ->). simpl. eapply IH; eauto.
    + destruct Hcase as (exit & le1 & s2 & events1 & Hmodels & Hcase).
      destruct exit.
      * destruct Hcase as (_ & _ & _ & ->). simpl.
        rewrite <- (app_nil_r events1).
        eapply modelLoop_policy; eauto; try discriminate. exact I.
      * destruct Hcase as (more & Hrec & ->). simpl.
        eapply modelLoop_policy;
          [exact Hmodels | reflexivity | eapply IH; eauto | discriminate | | discriminate].
        intros _ i j m p r. unfold nextCandidateStarts. simpl.
        split.
        -- eapply candidateLoop_candidate; eauto.
        -- destruct rest as [|ts' rest'].
           ++ simpl in Hrec. inversion Hrec; subst. left. reflexivity.
           ++ destruct (candidateLoop_head _ _ _ _ _ _ _ _ _ Hrec)
                as (provider' & tail & ->).
              right. eauto.
      * destruct Hcase as (_ & _ & _ & ->). simpl.
        rewrite <- (app_nil_r events1).
        eapply modelLoop_policy; eauto; try discriminate. exact I.
Qed.

Lemma snoc_eq_cons : forall (A : Type) (pre : list A) x h t,
  (pre ++ [x])%list = h :: t ->
  (pre = [] /\ x = h /\ t = []) \/ (exists pre', pre = h :: pre' /\ t = (pre' ++ [x])%list).
Proof.
  intros A [|p pre] x h t H; simpl in H; inversion H; subst; eauto.
Qed.

Lemma app_eq_snoc : forall (A : Type) (l1 l2 pre : list A) x,
  (l1 ++ l2)%list = (pre ++ [x])%list ->
  (l2 = [] /\ l1 = (pre ++ [x])%list)
  \/ (exists pre', l2 = (pre' ++ [x])%list /\ pre = (l1 ++ pre')%list).
Proof.
  intros A l1 l2 pre x H.
  destruct l2 as [|y pre' _] using rev_ind.
  - left. rewrite app_nil_r in H. auto.
  - right. rewrite app_assoc in H. apply app_inj_tail in H.
    destruct H as [<- <-]. eauto.
Qed.

Lemma snoc_in_cache_events : forall (writes pre : list Event) a,
  Forall (fun e => eventCandidate e = None) writes ->
  writes <> (pre ++ [EvAttempt a])%list.
Proof.
  intros writes pre a Hall Heq. subst. apply Forall_app in Hall.
  destruct Hall as [_ Hlast]. inversion Hlast; subst. discriminate.
Qed.

Lemma successWrites_spec : forall clip (w1 : W),
  (if bypassCache req then []
   else EvWriteCache (cacheKey req) clip
          :: snd (writePersistentCache cfg env (cacheKey req) clip w1))
  = successWrites cfg req clip.
Proof.
  intros clip w1. unfold successWrites, persistEvents, writePersistentCache.
  destruct (bypassCache req); [reflexivity|].
  destruct (CACHE_PERSIST_ENABLED cfg); reflexivity.
Qed.

(** How the innermost loop is left, read off the end of its log. *)
Lemma profileLoop_last :
  forall cand modelIndex model remaining profileIndex lastError (s : State W)
         exit lastError' s' events,
    profileLoop cfg env req seedBase cand modelIndex model profileIndex
      remaining lastError s = (exit, lastError', s', events) ->
    skipn profileIndex (getSafetyProfiles cfg) = remaining ->
    (events = [] -> exit = Finished /\ lastError' = lastError)
    /\ (forall pre a parsed,
          events = (pre ++ [EvAttempt a])%list ->
          aResult a = Failed parsed ->
          exit = exitAfterFailure parsed /\ lastError' = message parsed).
Proof.
  intros cand mi model remaining.
  induction remaining as [|profile rest IH];
    intros pi le s exit le' s' events Hrun Hskip.
  - simpl in Hrun. inversion Hrun; subst. split; [auto|].
    intros [|x pre] a parsed H; discriminate.
  - destruct (skipn_cons _ _ _ _ _ Hskip) as (Hnth & Hskip' & Hlen).
    assert (Hsingle : forall parsed0 pre a parsed,
              [EvAttempt (mkAttempt (candidateIndex cand) mi pi
                 (candidateTimestampSeconds cand) model profile (frames cand)
                 (Failed parsed0))] = (pre ++ [EvAttempt a])%list ->
              aResult a = Failed parsed -> parsed = parsed0).
    { intros parsed0 pre a parsed H Ha. symmetry in H.
      apply snoc_eq_cons in H. destruct H as [(_ & H & _)|(pre' & _ & H)].
      - inversion H; subst. simpl in Ha. congruence.
      - destruct pre'; discriminate. }
    destruct (profileLoop_step _ _ _ _ _ _ _ _ _ _ _ _ Hrun)
      as [(clip & w1 & writes & _ & -> & _ & -> & Hbypass & Hwrite)
         |(error & w1 & parsed0 & _ & _ & Hcase)].
    + split; [discriminate|]. intros pre a parsed H Ha. exfalso.
      symmetry in H. apply snoc_eq_cons in H.
      destruct H as [(_ & H & _)|(pre' & _ & H)].
      * inversion H; subst. simpl in Ha. discriminate.
      * revert H. apply snoc_in_cache_events.
        destruct (bypassCache req).
        -- destruct (Hbypass eq_refl) as [-> _]. constructor.
        -- destruct (Hwrite eq_refl) as [-> _]. constructor; [reflexivity|].
           apply writePersistentCache_events.
    + unfold exitAfterFailure. destruct (classify parsed0) eqn:Hclass.
      * destruct Hcase as (-> & -> & _ & ->). split; [discriminate|].
        intros pre a parsed H Ha. rewrite (Hsingle _ _ _ _ H Ha), Hclass. auto.
      * destruct Hcase as (-> & -> & _ & ->). split; [discriminate|].
        intros pre a parsed H Ha. rewrite (Hsingle _ _ _ _ H Ha), Hclass. auto.
      * destruct (Nat.ltb (S pi) (List.length (getSafetyProfiles cfg))) eqn:Hmore.
        -- destruct Hcase as (more & Hrec & ->). split; [discriminate|].
           intros pre a parsed H Ha.
           apply Nat.ltb_lt in Hmore.
           destruct rest as [|next rest']; [simpl in Hlen; lia|].
           destruct (profileLoop_head _ _ _ _ _ _ _ _ _ _ _ _ Hrec)
             as (result & tail & Hmore').
           symmetry in H. apply snoc_eq_cons in H.
           destruct H as [(_ & _ & H)|(pre' & _ & H)]; [congruence|].
           destruct (IH _ _ _ _ _ _ _ Hrec Hskip') as [_ IH2].
           exact (IH2 _ _ _ H Ha).
        -- destruct Hcase as (-> & -> & _ & ->). split; [discriminate|].
           intros pre a parsed H Ha. rewrite (Hsingle _ _ _ _ H Ha), Hclass. auto.
      * destruct Hcase as (-> & -> & _ & ->). split; [discriminate|].
        intros pre a parsed H Ha. rewrite (Hsingle _ _ _ _ H Ha), Hclass. auto.
Qed.

Lemma modelLoop_last :
  forall cand remaining modelIndex lastError (s : State W) exit lastError' s' events,
    modelLoop cfg env req seedBase cand modelIndex remaining lastError s
      = (exit, lastError', s', events) ->
    (events = [] -> exit = Finished /\ lastError' = lastError)
    /\ (forall pre a parsed,
          events = (pre ++ [EvAttempt a])%list ->
          aResult a = Failed parsed ->
          exit = exitAfterFailure parsed /\ lastError' = message parsed).
Proof.
  intros cand remaining.
  induction remaining as [|model rest IH]; intros mi le s exit le' s' events Hrun.
  - simpl in Hrun. inversion Hrun; subst. split; [auto|].
    intros [|x pre] a parsed H; discriminate.
  - destruct (modelLoop_step _ _ _ _ _ _ _ _ _ _ Hrun)
      as (exit1 & le1 & s1 & events1 & Hinner & Hcase).
    destruct (profileLoop_last _ _ _ _ _ _ _ _ _ _ _ Hinner eq_refl) as [Hnil Hlast].
    destruct exit1 as [r| |].
    + destruct Hcase as (-> & -> & _ & ->). auto.
    + destruct Hcase as (-> & -> & _ & ->). auto.
    + destruct Hcase as (more & Hrec & ->).
      destruct (IH _ _ _ _ _ _ _ Hrec) as [IHnil IHlast].
      split.
      * intros H. apply app_eq_nil in H. destruct H as [H1 H2].
        destruct (Hnil H1) as [_ ->]. auto.
      * intros pre a parsed H Ha. apply app_eq_snoc in H.
        destruct H as [[-> H]|(pre' & -> & _)].
        -- destruct (IHnil eq_refl) as [-> ->].
           destruct (Hlast _ _ _ H Ha) as [<- ->]. auto.
        -- eapply IHlast; eauto.
Qed.

Lemma candidateLoop_last :
  forall remaining index lastError (s : State W) response lastError' s' events,
    candidateLoop cfg env req seedBase index remaining lastError s
      = (response, lastError', s', events) ->
    (events = [] -> response = None /\ lastError' = lastError)
    /\ (forall pre a parsed,
          events = (pre ++ [EvAttempt a])%list ->
          aResult a = Failed parsed ->
          match exitAfterFailure parsed with
          | Returned r => response = Some r
          | _ => response = None /\ lastError' = message parsed
          end).
Proof.
  induction remaining as [|ts rest IH]; intros index le s response le' s' events Hrun.
  - simpl in Hrun. inversion Hrun; subst. split; [auto|].
    intros [|x pre] a parsed H; discriminate.
  - destruct (candidateLoop_step _ _ _ _ _ _ _ _ _ Hrun)
      as (acquired & w1 & provider & _ & Hcase).
    destruct acquired as [error|frames].
    + destruct Hcase as (more & Hrec & ->). split; [discriminate|].
      intros pre a parsed H Ha. symmetry in H. apply snoc_eq_cons in H.
      destruct H as [(_ & H & _)|(pre' & _ & H)]; [discriminate|].
      destruct (IH _ _ _ _ _ _ _ Hrec) as [_ IHlast]. eapply IHlast; eauto.
    + destruct Hcase as (exit & le1 & s2 & events1 & Hmodels & Hcase).
      destruct (modelLoop_last _ _ _ _ _ _ _ _ _ Hmodels) as [Hnil Hlast].
      destruct exit as [r| |].
      * destruct Hcase as (-> & -> & _ & ->). split; [discriminate|].
        intros pre a parsed H Ha. symmetry in H. apply snoc_eq_cons in H.
        destruct H as [(_ & H & _)|(pre' & _ & H)]; [discriminate|].
        destruct (Hlast _ _ _ H Ha) as [<- _]. reflexivity.
      * destruct Hcase as (more & Hrec & ->). split; [discriminate|].
        intros pre a parsed H Ha. symmetry in H. apply snoc_eq_cons in H.
        destruct H as [(_ & H & _)|(pre' & _ & H)]; [discriminate|].
        destruct (IH _ _ _ _ _ _ _ Hrec) as [IHnil IHlast].
        apply app_eq_snoc in H.
        destruct H as [[-> H]|(pre2 & -> & _)].
        -- destruct (IHnil eq_refl) as [-> ->].
           destruct (Hlast _ _ _ H Ha) as [<- ->]. auto.
        -- eapply IHlast; eauto.
      * destruct Hcase as (-> & -> & _ & ->). split; [discriminate|].
        intros pre a parsed H Ha. symmetry in H. apply snoc_eq_cons in H.
        destruct H as [(_ & H & _)|(pre' & _ & H)]; [discriminate|].
        destruct (Hlast _ _ _ H Ha) as [<- ->]. auto.
Qed.

(** The loops touch the in-memory cache only to write a generated clip. *)
Lemma profileLoop_cache :
  forall cand modelIndex model remaining profileIndex lastError (s : State W)
         exit lastError' s' events,
    profileLoop cfg env req seedBase cand modelIndex model profileIndex
      remaining lastError s = (exit, lastError', s', events) ->
    adClipCache s' = cacheAfter cfg req exit (adClipCache s).
Proof.
  intros cand mi model remaining.
  induction remaining as [|profile rest IH];
    intros pi le s exit le' s' events Hrun.
  - simpl in Hrun. inversion Hrun; subst. reflexivity.
  - destruct (profileLoop_step _ _ _ _ _ _ _ _ _ _ _ _ Hrun)
      as [(clip & w1 & writes & _ & -> & _ & -> & Hbypass & Hwrite)
         |(error & w1 & parsed & _ & _ & Hcase)].
    + simpl. destruct (bypassCache req).
      * destruct (Hbypass eq_refl) as [_ ->]. reflexivity.
      * destruct (Hwrite eq_refl) as [_ ->]. reflexivity.
    + unfold responseAfterFailure in Hcase. destruct (classify parsed).
      * destruct Hcase as (-> & _ & -> & _). reflexivity.
      * destruct Hcase as (-> & _ & -> & _). reflexivity.
      * destruct (Nat.ltb _ _).
        -- destruct Hcase as (more & Hrec & _). apply (IH _ _ _ _ _ _ _ Hrec).
        -- destruct Hcase as (-> & _ & -> & _). reflexivity.
      * destruct Hcase as (-> & _ & -> & _). reflexivity.
Qed.

Lemma modelLoop_cache :
  forall cand remaining modelIndex lastError (s : State W) exit lastError' s' events,
    modelLoop cfg env req seedBase cand modelIndex remaining lastError s
      = (exit, lastError', s', events) ->
    adClipCache s' = cacheAfter cfg req exit (adClipCache s).
Proof.
  intros cand remaining.
  induction remaining as [|model rest IH]; intros mi le s exit le' s' events Hrun.
  - simpl in Hrun. inversion Hrun; subst. reflexivity.
  - destruct (modelLoop_step _ _ _ _ _ _ _ _ _ _ Hrun)
      as (exit1 & le1 & s1 & events1 & Hinner & Hcase).
    pose proof (profileLoop_cache _ _ _ _ _ _ _ _ _ _ _ Hinner) as H1.
    destruct exit1 as [r| |].
    + destruct Hcase as (-> & _ & -> & _). exact H1.
    + destruct Hcase as (-> & _ & -> & _). exact H1.
    + destruct Hcase as (more & Hrec & _). simpl in H1. rewrite <- H1.
      apply (IH _ _ _ _ _ _ _ Hrec).
Qed.

Lemma candidateLoop_cache :
  forall remaining index lastError (s : State W) response lastError' s' events,
    candidateLoop cfg env req seedBase index remaining lastError s
      = (response, lastError', s', events) ->
    adClipCache s'
    = match response with
      | Some r => cacheAfter cfg req (Returned r) (adClipCache s)
      | None => adClipCache s
      end.
Proof.
  induction remaining as [|ts rest IH]; intros index le s response le' s' events Hrun.
  - simpl in Hrun. inversion Hrun; subst. reflexivity.
  - destruct (candidateLoop_step _ _ _ _ _ _ _ _ _ Hrun)
      as (acquired & w1 & provider & _ & Hcase).
    destruct acquired as [error|frames].
    + destruct Hcase as (more & Hrec & _). apply (IH _ _ _ _ _ _ _ Hrec).
    + destruct Hcase as (exit & le1 & s2 & events1 & Hmodels & Hcase).
      pose proof (modelLoop_cache _ _ _ _ _ _ _ _ _ Hmodels) as H1. simpl in H1.
      destruct exit as [r| |].
      * destruct Hcase as (-> & _ & -> & _). exact H1.
      * destruct Hcase as (more & Hrec & _). simpl in H1. rewrite <- H1.
        apply (IH _ _ _ _ _ _ _ Hrec).
      * destruct Hcase as (-> & _ & -> & _). exact H1.
Qed.

Lemma succeededWith_cons : forall clip e events (s' : State W) a,
  succeededWith cfg env req seedBase clip events s' a ->
  succeededWith cfg env req seedBase clip (e :: events) s' a.
Proof.
  intros clip e events s' a (pre & w0 & w1 & -> & H).
  exists (e :: pre), w0, w1. split; [reflexivity | exact H].
Qed.

Lemma succeededWith_app : forall clip before events (s' : State W) a,
  succeededWith cfg env req seedBase clip events s' a ->
  succeededWith cfg env req seedBase clip (before ++ events) s' a.
Proof.
  intros clip before. induction before as [|e before IH]; intros events s' a H.
  - exact H.
  - simpl. apply succeededWith_cons. apply IH. exact H.
Qed.

(** A loop that returns a clip has just generated it. *)
Lemma profileLoop_success :
  forall cand modelIndex model remaining profileIndex lastError (s : State W)
         exit lastError' s' events clip hit,
    profileLoop cfg env req seedBase cand modelIndex model profileIndex
      remaining lastError s = (exit, lastError', s', events) ->
    exit = Returned (Ok200 clip hit) ->
    hit = false
    /\ exists a,
         succeededWith cfg env req seedBase clip events s' a
         /\ aCandidateIndex a = candidateIndex cand
         /\ aTimestampSeconds a = candidateTimestampSeconds cand.
Proof.
  intros cand mi model remaining.
  induction remaining as [|profile rest IH];
    intros pi le s exit le' s' events clip hit Hrun Hexit.
  - simpl in Hrun. inversion Hrun; subst. discriminate.
  - destruct (profileLoop_step _ _ _ _ _ _ _ _ _ _ _ _ Hrun)
      as [(clip0 & w1 & writes & Hgen & -> & _ & -> & Hbypass & Hwrite)
         |(error & w1 & parsed & _ & _ & Hcase)].
    + inversion Hexit; subst. split; [reflexivity|].
      exists (mkAttempt (candidateIndex cand) mi pi (candidateTimestampSeconds cand)
                model profile (frames cand) (Generated clip)).
      split; [|split; reflexivity].
      exists [], (world s), w1. cbn [app aResult aCandidateIndex aTimestampSeconds
                                      aFrames aModel aProfile].
      rewrite <- (successWrites_spec clip w1).
      destruct cand as [ci ts fr]. cbn [candidateIndex candidateTimestampSeconds frames] in *.
      destruct (bypassCache req).
      * destruct (Hbypass eq_refl) as [-> ->]. auto.
      * destruct (Hwrite eq_refl) as [-> ->]. auto.
    + unfold responseAfterFailure in Hcase. destruct (classify parsed).
      * destruct Hcase as (-> & _). discriminate.
      * destruct Hcase as (-> & _). discriminate.
      * destruct (Nat.ltb _ _).
        -- destruct Hcase as (more & Hrec & ->).
           destruct (IH _ _ _ _ _ _ _ _ _ Hrec Hexit) as (Hhit & a & Ha & Hci & Hts).
           split; [exact Hhit|]. exists a. split; [|auto].
           apply succeededWith_cons. exact Ha.
        -- destruct Hcase as (-> & _). discriminate.
      * destruct Hcase as (-> & _). discriminate.
Qed.

Lemma modelLoop_success :
  forall cand remaining modelIndex lastError (s : State W) exit lastError' s' events
         clip hit,
    modelLoop cfg env req seedBase cand modelIndex remaining lastError s
      = (exit, lastError', s', events) ->
    exit = Returned (Ok200 clip hit) ->
    hit = false
    /\ exists a,
         succeededWith cfg env req seedBase clip events s' a
         /\ aCandidateIndex a = candidateIndex cand
         /\ aTimestampSeconds a = candidateTimestampSeconds cand.
Proof.
  intros cand remaining.
  induction remaining as [|model rest IH];
    intros mi le s exit le' s' events clip hit Hrun Hexit.
  - simpl in Hrun. inversion Hrun; subst. discriminate.
  - destruct (modelLoop_step _ _ _ _ _ _ _ _ _ _ Hrun)
      as (exit1 & le1 & s1 & events1 & Hinner & Hcase).
    destruct exit1 as [r| |].
    + destruct Hcase as (-> & _ & -> & ->).
      eapply profileLoop_success; eauto.
    + destruct Hcase as (-> & _). discriminate.
    + destruct Hcase as (more & Hrec & ->).
      destruct (IH _ _ _ _ _ _ _ _ _ Hrec Hexit) as (Hhit & a & Ha & Hci & Hts).
      split; [exact Hhit|]. exists a. split; [|auto].
      apply succeededWith_app. exact Ha.
Qed.

Lemma candidateLoop_success :
  forall remaining index lastError (s : State W) response lastError' s' events
         clip hit,
    candidateLoop cfg env req seedBase index remaining lastError s
      = (response, lastError', s', events) ->
    response = Some (Ok200 clip hit) ->
    hit = false
    /\ exists a,
         succeededWith cfg env req seedBase clip events s' a
         /\ In (aTimestampSeconds a) remaining.
Proof.
  induction remaining as [|ts rest IH];
    intros index le s response le' s' events clip hit Hrun Hresponse.
  - simpl in Hrun. inversion Hrun; subst. discriminate.
  - destruct (candidateLoop_step _ _ _ _ _ _ _ _ _ Hrun)
      as (acquired & w1 & provider & _ & Hcase).
    destruct acquired as [error|frames].
    + destruct Hcase as (more & Hrec & ->).
      destruct (IH _ _ _ _ _ _ _ _ _ Hrec Hresponse) as (Hhit & a & Ha & Hin).
      split; [exact Hhit|]. exists a. split; [|right; exact Hin].
      apply succeededWith_cons. exact Ha.
    + destruct Hcase as (exit & le1 & s2 & events1 & Hmodels & Hcase).
      destruct exit as [r| |].
      * destruct Hcase as (-> & _ & -> & ->). inversion Hresponse; subst.
        destruct (modelLoop_success _ _ _ _ _ _ _ _ _ _ _ Hmodels eq_refl)
          as (Hhit & a & Ha & Hci & Hts).
        split; [exact Hhit|]. exists a. split; [|left; simpl in Hts; auto].
        apply succeededWith_cons. exact Ha.
      * destruct Hcase as (more & Hrec & ->).
        destruct (IH _ _ _ _ _ _ _ _ _ Hrec Hresponse) as (Hhit & a & Ha & Hin).
        split; [exact Hhit|]. exists a. split; [|right; exact Hin].
        apply succeededWith_cons. apply succeededWith_app. exact Ha.
      * destruct Hcase as (-> & _). discriminate.
Qed.

End LoopFacts.

(** ** The handler *)

Section HandlerFacts.
Context {W : Type} (cfg : Config) (env : Env W).

Lemma readPersistentCache_events : forall key (w : W),
  Forall (fun e => eventCandidate e = None) (snd (readPersistentCache cfg env key w)).
Proof.
  intros key w. unfold readPersistentCache.
  destruct (CACHE_PERSIST_ENABLED cfg); [|constructor].
  destruct (readCacheFile env key w). repeat constructor.
Qed.

(** The cache check at the top of the handler. *)
Lemma lookupCaches_cases : forall req (s : State W) hit s1 looked,
  lookupCaches cfg env req s = (hit, s1, looked) ->
  Forall (fun e => eventCandidate e = None) looked
  /\ match hit with
     | None =>
         adClipCache s1 = adClipCache s
         /\ (bypassCache req = true \/ mapGet (cacheKey req) (adClipCache s) = None)
     | Some clip =>
         bypassCache req = false
         /\ ((mapGet (cacheKey req) (adClipCache s) = Some clip
              /\ s1 = s /\ looked = [])
             \/ (mapGet (cacheKey req) (adClipCache s) = None
                 /\ adClipCache s1
                    = writeCache cfg (cacheKey req) clip (adClipCache s)))
     end.
Proof.
  intros req s hit s1 looked Hlook. unfold lookupCaches in Hlook.
  destruct (bypassCache req) eqn:Hbypass.
  { inversion Hlook; subst. split; [constructor | auto]. }
  destruct (mapGet (cacheKey req) (adClipCache s)) as [cached|] eqn:Hget.
  { inversion Hlook; subst. split; [constructor | auto]. }
  pose proof (readPersistentCache_events (cacheKey req) (world s)) as Hevents.
  destruct (readPersistentCache cfg env (cacheKey req) (world s))
    as [[diskHit w1] events] eqn:Hdisk.
  simpl in Hevents.
  destruct diskHit as [clip|]; inversion Hlook; subst.
  - split.
    + apply Forall_app. split; [exact Hevents | repeat constructor].
    + split; [reflexivity|]. right. auto.
  - split; [exact Hevents | auto].
Qed.

(** The three ways through [serve]. *)
Lemma serve_cases : forall req (s : State W) response s' log,
  serve cfg env req s = (response, s', log) ->
  (exists clip, lookupCaches cfg env req s = (Some clip, s', log)
                /\ response = Ok200 clip true)
  \/ (exists error,
        lookupCaches cfg env req s = (None, s', log)
        /\ createClient cfg = inl error
        /\ response = ErrorResponse 500 (toErrorMessage error) None)
  \/ (exists s1 looked seedBase w2 result lastError events,
        lookupCaches cfg env req s = (None, s1, looked)
        /\ candidateLoop cfg env req seedBase 0
             (buildTimestampCandidates cfg (timestampSeconds req))
             "Unknown Veo generation failure." (mkState (adClipCache s1) w2)
           = (result, lastError, s', events)
        /\ response
           = match result with
             | Some r => r
             | None =>
                 ErrorResponse 500
                   ("Veo generation failed for all configured models. Last error: "
                      ++ lastError) None
             end
        /\ log = (looked ++ events)%list).
Proof.
  intros req s response s' log Hserve. unfold serve in Hserve.
  destruct (lookupCaches cfg env req s) as [[hit s1] looked] eqn:Hlook.
  destruct hit as [clip|].
  { inversion Hserve; subst. left. eauto. }
  destruct (createClient cfg) as [error|client] eqn:Hclient.
  { inversion Hserve; subst. right. left. eauto. }
  right. right.
  destruct (match requestedSeed req with
            | Some seed => (seed, world s1)
            | None => randomSeed env (world s1)
            end) as [seedBase w2] eqn:Hseed.
  destruct (candidateLoop cfg env req seedBase 0
              (buildTimestampCandidates cfg (timestampSeconds req))
              "Unknown Veo generation failure." (mkState (adClipCache s1) w2))
    as [[[result lastError] s3] events] eqn:Hloop.
  inversion Hserve; subst.
  exists s1, looked, seedBase, w2, result, lastError, events. auto.
Qed.

(** The ways through [POST]: refused while reading, or served. *)
Lemma POST_cases : forall body (s : State W) response s' log,
  POST cfg env body s = (response, s', log) ->
  (s' = s /\ log = []
   /\ match response with Ok200 _ _ => False | _ => True end)
  \/ (exists json req,
        body = Some json /\ readRequest cfg json = inr req
        /\ serve cfg env req s = (response, s', log)).
Proof.
  intros body s response s' log Hpost. unfold POST in Hpost.
  destruct body as [json|].
  - destruct (readRequest cfg json) as [refused|req] eqn:Hread.
    + inversion Hpost; subst. left. repeat split; auto.
      unfold readRequest in Hread.
      destruct (Js.get json "product"); [|inversion Hread; exact I].
      destruct (validateProduct v); [|inversion Hread; exact I].
      destruct (String.eqb _ ""); inversion Hread; exact I.
    + right. eauto.
  - inversion Hpost; subst. left. repeat split; auto.
Qed.

Lemma policy_at : forall pre a post,
  policy cfg (pre ++ EvAttempt a :: post) -> follows cfg a post.
Proof.
  induction pre as [|e pre IH]; intros a post H; simpl in H.
  - tauto.
  - destruct e; try (apply IH; exact H). destruct H as [_ H]. apply IH. exact H.
Qed.

(** Every log of the handler keeps the policy. *)
Lemma POST_policy : forall body (s : State W) response s' log,
  POST cfg env body s = (response, s', log) -> policy cfg log.
Proof.
  intros body s response s' log Hpost.
  destruct (POST_cases _ _ _ _ _ Hpost) as [(_ & -> & _)|(json & req & _ & _ & Hserve)].
  { exact I. }
  destruct (serve_cases _ _ _ _ _ Hserve)
    as [(clip & Hlook & _)|[(error & Hlook & _)
       |(s1 & looked & seed & w2 & result & le & events & Hlook & Hloop & _ & ->)]].
  - apply policy_cache_events. apply (lookupCaches_cases _ _ _ _ _ Hlook).
  - apply policy_cache_events. apply (lookupCaches_cases _ _ _ _ _ Hlook).
  - apply policy_app_cache_events.
    + apply (lookupCaches_cases _ _ _ _ _ Hlook).
    + eapply candidateLoop_policy; eauto.
Qed.

(** The answer after a failed attempt that ends the log. *)
Lemma POST_last_failure : forall body (s : State W) response s' log pre a parsed,
  POST cfg env body s = (response, s', log) ->
  log = (pre ++ [EvAttempt a])%list ->
  aResult a = Failed parsed ->
  response = responseAfterFailure parsed /\ adClipCache s' = adClipCache s.
Proof.
  intros body s response s' log pre a parsed Hpost Hlog Ha.
  destruct (POST_cases _ _ _ _ _ Hpost) as [(_ & -> & _)|(json & req & _ & _ & Hserve)].
  { destruct pre; discriminate. }
  assert (Hnot : forall events,
             Forall (fun e => eventCandidate e = None) events ->
             events <> (pre ++ [EvAttempt a])%list).
  { intros events. apply snoc_in_cache_events. }
  destruct (serve_cases _ _ _ _ _ Hserve)
    as [(clip & Hlook & _)|[(error & Hlook & _)
       |(s1 & looked & seed & w2 & result & le & events & Hlook & Hloop & -> & Hlog')]].
  - exfalso. apply (Hnot log); [|exact Hlog].
    apply (lookupCaches_cases _ _ _ _ _ Hlook).
  - exfalso. apply (Hnot log); [|exact Hlog].
    apply (lookupCaches_cases _ _ _ _ _ Hlook).
  - destruct (lookupCaches_cases _ _ _ _ _ Hlook) as [Hlooked [Hcache _]].
    rewrite Hlog in Hlog'. symmetry in Hlog'. apply app_eq_snoc in Hlog'.
    destruct Hlog' as [[-> Hlog']|(pre' & Hevents & _)].
    { exfalso. apply (Hnot looked); auto. }
    destruct (candidateLoop_last _ _ _ _ _ _ _ _ _ _ _ _ Hloop) as [_ Hlast].
    specialize (Hlast _ _ _ Hevents Ha).
    pose proof (candidateLoop_cache _ _ _ _ _ _ _ _ _ _ _ _ Hloop) as Hc.
    simpl in Hc. rewrite Hcache in Hc.
    unfold exitAfterFailure, responseAfterFailure in *.
    destruct (classify parsed).
    + rewrite Hlast in *. auto.
    + rewrite Hlast in *. auto.
    + destruct Hlast as [-> ->]. auto.
    + destruct Hlast as [-> ->]. auto.
Qed.

End HandlerFacts.

Lemma classify_terminal : forall parsed,
  isPermissionDenied parsed = true \/ isQuotaExceeded parsed = true ->
  (classify parsed = PermissionDenied /\ isPermissionDenied parsed = true)
  \/ (classify parsed = QuotaExceeded /\ isPermissionDenied parsed = false).
Proof.
  intros parsed H. unfold classify.
  destruct (isPermissionDenied parsed); [left; auto|].
  destruct H as [H|H]; [discriminate|]. rewrite H. right. auto.
Qed.

Lemma classify_other : forall parsed,
  isPermissionDenied parsed = false ->
  isQuotaExceeded parsed = false ->
  isBlockedInputImageError (message parsed) = false ->
  isMissingSampleError (message parsed) = false ->
  classify parsed = OtherError.
Proof.
  intros parsed H1 H2 H3 H4. unfold classify. rewrite H1, H2, H3, H4. reflexivity.
Qed.


(** C3. In every run of the handler, an attempt whose error is read as
    permission denied (code 403 or status PERMISSION_DENIED) or as quota
    exceeded (code 429 or status RESOURCE_EXHAUSTED) is the last thing the
    handler does: nothing follows it in the log, no frame extraction, no
    attempt with another profile, model or candidate, no cache write.  The
    answer is 403 in the first case, 429 otherwise, with the provider's
    message as detail, and the in-memory cache is as it was. *)
Theorem terminal_errors_abort_at_once :
  forall (W : Type) (cfg : Config) (env : Env W) (body : option Js.Value)
         (s s' : State W) (response : Response) (log pre post : list Event)
         (a : Attempt) (parsed : ParsedError),
    POST cfg env body s = (response, s', log) ->
    log = (pre ++ EvAttempt a :: post)%list ->
    aResult a = Failed parsed ->
    isPermissionDenied parsed = true \/ isQuotaExceeded parsed = true ->
    post = []
    /\ response
       = (if isPermissionDenied parsed
          then ErrorResponse 403
                 "Vertex permission denied for current credentials/project."
                 (Some (message parsed))
          else ErrorResponse 429
                 "Veo quota exceeded for current billing/quota project."
                 (Some (message parsed)))
    /\ adClipCache s' = adClipCache s.
Proof.
  intros W cfg env body s s' response log pre post a parsed Hpost Hlog Ha Hterminal.
  pose proof (POST_policy cfg env _ _ _ _ _ Hpost) as Hpolicy.
  rewrite Hlog in Hpolicy. apply policy_at in Hpolicy.
  unfold follows in Hpolicy. rewrite Ha in Hpolicy.
  assert (Hend : post = []).
  { destruct (classify_terminal _ Hterminal) as [[Hc _]|[Hc _]];
      rewrite Hc in Hpolicy; exact Hpolicy. }
  subst post. split; [reflexivity|].
  destruct (POST_last_failure cfg env _ _ _ _ _ _ _ _ Hpost Hlog Ha) as [-> Hcache].
  split; [|exact Hcache].
  unfold responseAfterFailure.
  destruct (classify_terminal _ Hterminal) as [[-> ->]|[-> ->]]; reflexivity.
Qed.

Lemma terminal_errors_abort_at_once_witness :
  ([] : list Event) = []
  /\ fst (fst (POST Sim.config (Sim.env (Sim.failing Sim.deniedError))
                 (Some (Sim.body 12 [])) Sim.start))
     = ErrorResponse 403 "Vertex permission denied for current credentials/project."
         (Some "caller lacks permission")
  /\ adClipCache (snd (fst (POST Sim.config (Sim.env (Sim.failing Sim.deniedError))
                              (Some (Sim.body 12 [])) Sim.start)))
     = adClipCache Sim.start.
Proof.
  pose (run := POST Sim.config (Sim.env (Sim.failing Sim.deniedError))
                 (Some (Sim.body 12 [])) Sim.start).
  refine (terminal_errors_abort_at_once Sim.World Sim.config
            (Sim.env (Sim.failing Sim.deniedError)) (Some (Sim.body 12 []))
            Sim.start (snd (fst run)) (fst (fst run)) (snd run)
            (firstn 2 (snd run)) []
            (mkAttempt 0 0 0 (12000 # 1000) Sim.fast Sim.adult
               (Sim.framesOf "12" "20") (Failed Sim.deniedParsed))
            Sim.deniedParsed _ _ _ _).
  - vm_compute. reflexivity.
  - vm_compute. reflexivity.
  - reflexivity.
  - left. reflexivity.
Defined.

(** A run in which every generation fails with an error of no special
    class: after the second and last model has failed for the first
    candidate, the handler answers 500 although eight more candidates
    remain; no event of the log belongs to the second candidate. *)
Lemma models_exhausted_ends_the_request :
  exists s' pre,
    POST Sim.config (Sim.env (Sim.failing (ErrorObject "boom")))
      (Some (Sim.body 12 [])) Sim.start
    = (ErrorResponse 500
         "Veo generation failed for all configured models. Last error: boom" None,
       s', (pre ++ [EvAttempt (Sim.boomAttempt 1 Sim.standard)])%list)
    /\ classify Sim.boom = OtherError
    /\ S (aModelIndex (Sim.boomAttempt 1 Sim.standard))
       = List.length (MODEL_CANDIDATES Sim.config)
    /\ List.length (buildTimestampCandidates Sim.config 12) = 9%nat
    /\ Forall (fun e => eventCandidate e <> Some 1%nat)
         (pre ++ [EvAttempt (Sim.boomAttempt 1 Sim.standard)])%list.
Proof.
  eexists.
  exists (firstn 3 (snd (POST Sim.config (Sim.env (Sim.failing (ErrorObject "boom")))
                          (Some (Sim.body 12 [])) Sim.start))).
  split; [vm_compute; reflexivity|].
  split; [reflexivity|]. split; [reflexivity|]. split; [reflexivity|].
  vm_compute. repeat constructor; discriminate.
Qed.

(** C2, amended. In every run of the handler, after an attempt that failed
    with an error that is neither permission denied, quota exceeded, blocked
    input image nor missing sample: if another model remains, the next thing
    the handler does is an attempt with the next model and the first safety
    profile, for the same candidate, timestamp and frames; if it was the
    last model, nothing follows, and the handler answers 500 with that
    error as the last error.  It does not go on to the next timestamp
    candidate. *)
Theorem other_errors_move_to_the_next_model :
  forall (W : Type) (cfg : Config) (env : Env W) (body : option Js.Value)
         (s s' : State W) (response : Response) (log pre post : list Event)
         (a : Attempt) (parsed : ParsedError),
    POST cfg env body s = (response, s', log) ->
    log = (pre ++ EvAttempt a :: post)%list ->
    aResult a = Failed parsed ->
    isPermissionDenied parsed = false ->
    isQuotaExceeded parsed = false ->
    isBlockedInputImageError (message parsed) = false ->
    isMissingSampleError (message parsed) = false ->
    ((S (aModelIndex a) < List.length (MODEL_CANDIDATES cfg))%nat ->
     exists model profile result tail,
       nth_error (MODEL_CANDIDATES cfg) (S (aModelIndex a)) = Some model
       /\ nth_error (getSafetyProfiles cfg) 0 = Some profile
       /\ post = EvAttempt (mkAttempt (aCandidateIndex a) (S (aModelIndex a)) 0
                              (aTimestampSeconds a) model profile (aFrames a) result)
                   :: tail)
    /\ ((List.length (MODEL_CANDIDATES cfg) <= S (aModelIndex a))%nat ->
        post = []
        /\ response
           = ErrorResponse 500
               ("Veo generation failed for all configured models. Last error: "
                  ++ message parsed) None).
Proof.
  intros W cfg env body s s' response log pre post a parsed
         Hpost Hlog Ha Hperm Hquota Hblocked Hmissing.
  pose proof (classify_other _ Hperm Hquota Hblocked Hmissing) as Hclass.
  pose proof (POST_policy cfg env _ _ _ _ _ Hpost) as Hpolicy.
  rewrite Hlog in Hpolicy. apply policy_at in Hpolicy.
  unfold follows in Hpolicy. rewrite Ha, Hclass in Hpolicy.
  unfold nextModelStarts, retried in Hpolicy.
  split.
  - intros Hmore. apply Nat.ltb_lt in Hmore. rewrite Hmore in Hpolicy. exact Hpolicy.
  - intros Hlast. apply Nat.ltb_ge in Hlast. rewrite Hlast in Hpolicy.
    subst post. split; [reflexivity|].
    destruct (POST_last_failure cfg env _ _ _ _ _ _ _ _ Hpost Hlog Ha) as [-> _].
    unfold responseAfterFailure. rewrite Hclass. reflexivity.
Qed.

Lemma other_errors_move_to_the_next_model_witness :
  ((1 < List.length (MODEL_CANDIDATES Sim.config))%nat ->
   exists model profile result tail,
     nth_error (MODEL_CANDIDATES Sim.config) 1 = Some model
     /\ nth_error (getSafetyProfiles Sim.config) 0 = Some profile
     /\ [EvAttempt (Sim.boomAttempt 1 Sim.standard)]
        = EvAttempt (mkAttempt 0 1 0 (12000 # 1000) model profile
                       (Sim.framesOf "12" "20") result) :: tail)
  /\ ((List.length (MODEL_CANDIDATES Sim.config) <= 1)%nat ->
      [EvAttempt (Sim.boomAttempt 1 Sim.standard)] = []
      /\ fst (fst (POST Sim.config (Sim.env (Sim.failing (ErrorObject "boom")))
                     (Some (Sim.body 12 [])) Sim.start))
         = ErrorResponse 500
             ("Veo generation failed for all configured models. Last error: "
                ++ "boom") None).
Proof.
  pose (run := POST Sim.config (Sim.env (Sim.failing (ErrorObject "boom")))
                 (Some (Sim.body 12 [])) Sim.start).
  refine (other_errors_move_to_the_next_model Sim.World Sim.config
            (Sim.env (Sim.failing (ErrorObject "boom"))) (Some (Sim.body 12 []))
            Sim.start (snd (fst run)) (fst (fst run)) (snd run)
            (firstn 2 (snd run)) [EvAttempt (Sim.boomAttempt 1 Sim.standard)]
            (Sim.boomAttempt 0 Sim.fast) Sim.boom _ _ _ _ _ _ _).
  - vm_compute. reflexivity.
  - vm_compute. reflexivity.
  - reflexivity.
  - reflexivity.
  - reflexivity.
  - vm_compute. reflexivity.
  - vm_compute. reflexivity.
Defined.

(** ** What a successful run leaves behind *)

Section SuccessFacts.
Context {W : Type} (cfg : Config) (env : Env W).

(** A generated clip names the timestamp that was asked for and the one its
    frames were taken at, the model and the profile. *)
Lemma generate_fields :
  forall req seedBase cand model profile (w w' : W) clip,
    generate cfg env req seedBase cand model profile w = (inr clip, w') ->
    requestedTimestampSeconds clip = timestampSeconds req
    /\ appliedTimestampSeconds clip = candidateTimestampSeconds cand
    /\ modelUsed clip = model
    /\ personGenerationUsed clip = personGeneration profile.
Proof.
  intros req seedBase cand model profile w w' clip Hgen.
  unfold generate in Hgen.
  destruct (requiresSplit cfg req).
  - unfold generateSplit, both, bind, ret, throw, now in Hgen.
    break_match_in Hgen.
    all: inversion Hgen; subst; simpl; auto.
  - unfold generateSingle, bind, ret, throw, now in Hgen.
    break_match_in Hgen.
    all: inversion Hgen; subst; simpl; auto.
Qed.

End SuccessFacts.

(** A request that sets [bypassCache]: the clip is generated and returned
    with [cacheHit] false, but neither cache is written. *)
Lemma bypass_request_is_not_cached :
  exists clip s' log,
    POST Sim.config (Sim.env Sim.allGood)
      (Some (Sim.body 12 [("bypassCache", Js.Bool true)])) Sim.start
    = (Ok200 clip false, s', log)
    /\ adClipCache s' = []
    /\ existsb isCacheWrite log = false.
Proof.
  eexists. eexists. eexists. split; [vm_compute; reflexivity|].
  split; reflexivity.
Qed.

(** C7, amended. Every answer with [cacheHit] false comes from a successful
    generation attempt, the last attempt of the log, and carries the
    timestamp that was asked for and the candidate timestamp the frames were
    taken at.  Unless the request bypasses the cache, the clip is written to
    the in-memory cache under the request's key and, when persistence is
    enabled, the write of the durable cache file is issued, both before the
    handler returns, and nothing else follows the attempt.  When the
    request bypasses the cache, no cache is written. *)
Theorem generated_clip_is_cached_unless_bypassed :
  forall (W : Type) (cfg : Config) (env : Env W) (body : option Js.Value)
         (s s' : State W) (clip : CachedClip) (log : list Event),
    POST cfg env body s = (Ok200 clip false, s', log) ->
    exists json req a pre,
      body = Some json
      /\ readRequest cfg json = inr req
      /\ aResult a = Generated clip
      /\ requestedTimestampSeconds clip = timestampSeconds req
      /\ appliedTimestampSeconds clip = aTimestampSeconds a
      /\ In (appliedTimestampSeconds clip)
            (buildTimestampCandidates cfg (timestampSeconds req))
      /\ if bypassCache req
         then log = (pre ++ [EvAttempt a])%list
              /\ adClipCache s' = adClipCache s
         else log = (pre ++ EvAttempt a :: EvWriteCache (cacheKey req) clip
                           :: persistEvents cfg (cacheKey req) clip)%list
              /\ adClipCache s' = writeCache cfg (cacheKey req) clip (adClipCache s)
              /\ (CACHE_PERSIST_ENABLED cfg = true ->
                  exists w1, world s' = writeCacheFile env (cacheKey req) clip w1).
Proof.
  intros W cfg env body s s' clip log Hpost.
  destruct (POST_cases cfg env _ _ _ _ _ Hpost)
    as [(_ & _ & [])|(json & req & -> & Hread & Hserve)].
  destruct (serve_cases cfg env _ _ _ _ _ Hserve)
    as [(hit & _ & Hresponse)|[(error & _ & _ & Hresponse)
       |(s1 & looked & seed & w2 & result & le & events & Hlook & Hloop & Hresponse & ->)]];
    try discriminate.
  destruct result as [r|]; [subst r | discriminate].
  destruct (lookupCaches_cases cfg env _ _ _ _ _ Hlook) as [_ [Hcache _]].
  destruct (candidateLoop_success cfg env _ _ _ _ _ _ _ _ _ _ _ _ Hloop eq_refl)
    as (_ & a & (pre & w0 & w1 & -> & Ha & Hgen & Hworld) & Hin).
  destruct (generate_fields cfg env _ _ _ _ _ _ _ _ Hgen) as (Hreq & Happ & _).
  simpl in Happ.
  pose proof (candidateLoop_cache cfg env _ _ _ _ _ _ _ _ _ _ Hloop) as Hc.
  simpl in Hc. rewrite Hcache in Hc.
  exists json, req, a, (looked ++ pre)%list.
  repeat (split; [first [reflexivity | assumption | congruence]|]).
  unfold successWrites, writePersistentCache in *.
  destruct (bypassCache req).
  - split; [rewrite <- app_assoc; reflexivity | exact Hc].
  - split; [rewrite <- app_assoc; reflexivity|]. split; [exact Hc|].
    intros Hpersist. rewrite Hpersist in Hworld. simpl in Hworld. eauto.
Qed.

Lemma generated_clip_is_cached_unless_bypassed_witness :
  adClipCache (snd (fst (POST Sim.config (Sim.env Sim.allGood)
                           (Some (Sim.body 12 [])) Sim.start)))
  = [("dQw4w9WgXcQ:12000:8:sneaker-01:ad-possession:16:9:720p:auto",
      Sim.clipOf (fst (fst (POST Sim.config (Sim.env Sim.allGood)
                              (Some (Sim.body 12 [])) Sim.start))))].
Proof.
  pose (run := POST Sim.config (Sim.env Sim.allGood) (Some (Sim.body 12 [])) Sim.start).
  assert (Hrun : run = (Ok200 (Sim.clipOf (fst (fst run))) false, snd (fst run), snd run))
    by (vm_compute; reflexivity).
  destruct (generated_clip_is_cached_unless_bypassed Sim.World Sim.config
              (Sim.env Sim.allGood) (Some (Sim.body 12 [])) Sim.start
              (snd (fst run)) (Sim.clipOf (fst (fst run))) (snd run) Hrun)
    as (json & req & a & pre & Hbody & Hread & _ & _ & _ & _ & Hcache).
  injection Hbody as <-.
  vm_compute in Hread. injection Hread as <-.
  cbn [bypassCache] in Hcache. destruct Hcache as (_ & Hcache & _).
  fold run. rewrite Hcache. vm_compute. reflexivity.
Defined.

(** ** Cache identity *)






(** ** Timestamp candidates *)

Section CandidateFacts.






End CandidateFacts.

(** ** Blocked frames *)

Section ScenarioFacts.
Context {W : Type} (cfg : Config) (env : Env W) (req : Request).



End ScenarioFacts.

Section BlockedCandidate.
Context {W : Type} (cfg : Config) (env : Env W).





End BlockedCandidate.



